(** * YTPTube: download-queue engine and web client stores

    A shallow embedding of
    - the download-queue engine (job state machine and worker pool),
    - the web client's socket stores (the TypeScript store and the older
      JavaScript store), which keep the client's copy of the active queue
      and of the history in step with the server's events,
    - the string helpers [iTrim], [eTrim], [sTrim], [uri], [encode] and
      [decode] of the client's utility module.

    Definitions come first, grouped in modules; the theorems follow. *)

From Stdlib Require Import ZArith NArith Ascii String List Bool Lia.
From Stdlib Require DecimalString HexadecimalString.
From stdpp Require Import base option gmap strings list.

Local Open Scope string_scope.

(* ===================================================================== *)
(** * Part I. Definitions *)
(* ===================================================================== *)

(* --------------------------------------------------------------------- *)
(** ** The queue engine *)
(* --------------------------------------------------------------------- *)

(** The engine is backend code and is not among the sources: this module is
    modelled from sections 3, 4.2 and 4.3 of the spec. *)
Module Engine.

(** Modelled from the spec: the Job status enumeration of the job state
    machine (the engine's code is not among the sources). *)
Inductive Status : Type :=
| pending
| downloading
| postprocessing
| completed
| error
| cancelled.

(** Modelled from the spec: "Terminal states: completed, error,
    cancelled". *)
Definition terminal (s : Status) : bool :=
  match s with
  | completed | error | cancelled => true
  | _ => false
  end.

(** Modelled from the spec: a Job record, reduced to its identifier and
    status; the other fields do not take part in dispatch. *)
Record Job : Type := mkJob { job_id : nat; status : Status }.

(** Modelled from the spec: the engine state object: the pool size [N],
    the Jobs in insertion order, the process-wide pause flag and the
    source of fresh identifiers. *)
Record engine : Type := mkEngine {
  pool_size : nat;
  jobs : list Job;
  paused : bool;
  next_id : nat
}.

(** Modelled from the spec: the engine at start-up, with an empty
    store. *)
Definition init (N : nat) : engine :=
  {| pool_size := N; jobs := []; paused := false; next_id := 0 |}.

(** Modelled from the spec: the Jobs counted by the invariant, those whose
    status is downloading. *)
Definition is_downloading (j : Job) : bool :=
  match status j with downloading => true | _ => false end.

(** Modelled from the spec: a Job holds a worker slot from dispatch until
    a terminal transition, that is while it is downloading or
    postprocessing. *)
Definition holds_slot (j : Job) : bool :=
  match status j with downloading | postprocessing => true | _ => false end.

(** The number of Jobs that pass [p]. *)
Fixpoint count (p : Job -> bool) (l : list Job) : nat :=
  match l with
  | [] => 0
  | j :: r => (if p j then 1 else 0) + count p r
  end.

Definition downloading_count (e : engine) : nat := count is_downloading (jobs e).
Definition busy_slots (e : engine) : nat := count holds_slot (jobs e).

(** Modelled from the spec: "each idle slot selects the oldest pending Job
    (insertion order, i.e., FIFO)" and moves it to downloading. *)
Fixpoint start_oldest (l : list Job) : list Job :=
  match l with
  | [] => []
  | j :: r =>
      match status j with
      | pending => mkJob (job_id j) downloading :: r
      | _ => j :: start_oldest r
      end
  end.

(** Apply a status transition to the Job named [id]. *)
Definition on_job (id : nat) (f : Status -> Status) (l : list Job) : list Job :=
  map (fun j => if Nat.eqb (job_id j) id then mkJob (job_id j) (f (status j)) else j) l.

Definition with_jobs (e : engine) (l : list Job) : engine :=
  {| pool_size := pool_size e; jobs := l; paused := paused e; next_id := next_id e |}.

Definition with_paused (e : engine) (b : bool) : engine :=
  {| pool_size := pool_size e; jobs := jobs e; paused := b; next_id := next_id e |}.

(** Modelled from the spec: what can happen to the engine: the control
    interface (submit, cancel, delete, pause, resume), the dispatcher
    pulling work, the executor's outcomes, and a restart. *)
Inductive action : Type :=
| Submit
| Dispatch
| BeginPostprocess (id : nat)
| Complete (id : nat)
| Fail (id : nat)
| Cancel (id : nat)
| Delete (id : nat)
| Pause
| Resume
| Restart.

(** Modelled from the spec: the transition rules of the job state machine
    and of the dispatcher.
    - [pending -> downloading] only through [Dispatch], only when the
      pause flag is clear and a slot is free;
    - [downloading -> postprocessing | completed | error],
      [postprocessing -> completed | error];
    - cancelling a pending Job removes it, cancelling a downloading Job
      makes it cancelled;
    - delete removes a Job of the history;
    - on restart, Jobs found downloading or postprocessing are pending
      again. *)
Definition step (e : engine) (a : action) : engine :=
  match a with
  | Submit =>
      {| pool_size := pool_size e;
         jobs := jobs e ++ [mkJob (next_id e) pending];
         paused := paused e;
         next_id := S (next_id e) |}
  | Dispatch =>
      if paused e then e
      else if Nat.ltb (busy_slots e) (pool_size e) then with_jobs e (start_oldest (jobs e))
      else e
  | BeginPostprocess id =>
      with_jobs e (on_job id (fun s => match s with downloading => postprocessing | _ => s end) (jobs e))
  | Complete id =>
      with_jobs e (on_job id (fun s => match s with downloading | postprocessing => completed | _ => s end) (jobs e))
  | Fail id =>
      with_jobs e (on_job id (fun s => match s with downloading | postprocessing => error | _ => s end) (jobs e))
  | Cancel id =>
      with_jobs e
        (on_job id (fun s => match s with downloading => cancelled | _ => s end)
           (List.filter (fun j => negb (Nat.eqb (job_id j) id && match status j with pending => true | _ => false end)) (jobs e)))
  | Delete id =>
      with_jobs e (List.filter (fun j => negb (Nat.eqb (job_id j) id && terminal (status j))) (jobs e))
  | Pause => with_paused e true
  | Resume => with_paused e false
  | Restart =>
      with_jobs e
        (map (fun j => match status j with
                       | downloading | postprocessing => mkJob (job_id j) pending
                       | _ => j
                       end) (jobs e))
  end.

(** The engine after a sequence of actions. *)
Definition run (e : engine) (l : list action) : engine := fold_left step l e.

(** The reachable engine states for a pool of size [N]. *)
Definition reachable (N : nat) (e : engine) : Prop :=
  exists l, e = run (init N) l.

End Engine.

(* --------------------------------------------------------------------- *)
(** ** JavaScript values *)
(* --------------------------------------------------------------------- *)

Module Js.

#[local] Set Warnings "-register-all".

(** What [JSON.parse] returns, plus [undefined] for a property that is not
    there. An object is its list of properties; a number is kept as an
    integer, since the stores only ever test a number for truthiness. *)
Inductive jsval : Type :=
| JUndefined
| JNull
| JBool (b : bool)
| JNum (n : Z)
| JStr (s : string)
| JArr (l : list jsval)
| JObj (fields : list (string * jsval)).

(** [Boolean(v)]. *)
Definition truthy (v : jsval) : bool :=
  match v with
  | JUndefined | JNull => false
  | JBool b => b
  | JNum n => negb (Z.eqb n 0)
  | JStr s => negb (String.eqb s "")
  | JArr _ | JObj _ => true
  end.

(** [a || b]. *)
Definition js_or (a b : jsval) : jsval := if truthy a then a else b.

(** The property [k] of an object, [undefined] when it has none. *)
Fixpoint field (k : string) (fields : list (string * jsval)) : jsval :=
  match fields with
  | [] => JUndefined
  | (k', v) :: r => if String.eqb k' k then v else field k r
  end.

(** [v?.k], for the property names the stores read (none of them is a
    property of strings, numbers or arrays). *)
Definition prop_opt (v : jsval) (k : string) : jsval :=
  match v with
  | JObj fields => field k fields
  | _ => JUndefined
  end.

(** [v.k]: a TypeError ([None]) on [null] and [undefined]. *)
Definition prop (v : jsval) (k : string) : option jsval :=
  match v with
  | JUndefined | JNull => None
  | _ => Some (prop_opt v k)
  end.

End Js.

(* --------------------------------------------------------------------- *)
(** ** The client stores *)
(* --------------------------------------------------------------------- *)

Module Client.
Import Js.

(** An entry of the queue or of the history, at the type [StoreItem] the
    TypeScript store gives it: the identifier is a string; of the other
    properties only the title is read by the stores. *)
Record StoreItem : Type := mkItem {
  _id : string;
  title : option string;
  extra : jsval
}.

(** The two collections of the state store. *)
Inductive StateType : Type := queue | history.

Definition type_name (t : StateType) : string :=
  match t with queue => "queue" | history => "history" end.

Definition other (t : StateType) : StateType :=
  match t with queue => history | history => queue end.

(** Modelled from the spec: the state store ([useStateStore]), which is not
    among the sources: the active queue and the history, each a collection
    of Job records keyed by id. *)
Record State : Type := mkState {
  st_queue : gmap string StoreItem;
  st_history : gmap string StoreItem
}.

Definition coll (t : StateType) (s : State) : gmap string StoreItem :=
  match t with queue => st_queue s | history => st_history s end.

Definition set_coll (t : StateType) (m : gmap string StoreItem) (s : State) : State :=
  match t with
  | queue => {| st_queue := m; st_history := st_history s |}
  | history => {| st_queue := st_queue s; st_history := m |}
  end.

(** Modelled from the spec: [stateStore.has(type, key)], one of the
    operations of the state store the socket stores call, each with its
    meaning on a collection keyed by id: whether the key is bound. *)
Definition has (t : StateType) (k : string) (s : State) : bool :=
  bool_decide (is_Some (coll t s !! k)).

(** Modelled from the spec: [stateStore.get(type, key, default)]: the entry
    bound to the key; the caller supplies the default. *)
Definition get (t : StateType) (k : string) (s : State) : option StoreItem :=
  coll t s !! k.

(** Modelled from the spec: [stateStore.add(type, key, value)] binds the
    key. *)
Definition add (t : StateType) (k : string) (v : StoreItem) (s : State) : State :=
  set_coll t (<[k := v]> (coll t s)) s.

(** Modelled from the spec: [stateStore.update(type, key, value)] binds the
    key to its new value. *)
Definition update (t : StateType) (k : string) (v : StoreItem) (s : State) : State :=
  set_coll t (<[k := v]> (coll t s)) s.

(** Modelled from the spec: [stateStore.remove(type, key)] unbinds the
    key. *)
Definition remove (t : StateType) (k : string) (s : State) : State :=
  set_coll t (delete k (coll t s)) s.

(** Modelled from the spec: [stateStore.addAll(type, data)] installs a whole
    collection. *)
Definition addAll (t : StateType) (m : gmap string StoreItem) (s : State) : State :=
  set_coll t m s.

(** Modelled from the spec: the configuration store ([useConfigStore]),
    which is not among the sources: app configuration, scheduled tasks,
    folders, presets, download fields and the pause flag. *)
Record ConfigState : Type := mkConfig {
  app : jsval;
  tasks : jsval;
  folders : jsval;
  presets : jsval;
  dl_fields : jsval;
  paused : bool
}.

(** A [Partial<ConfigState>]: the keys an object literal gives. *)
Record ConfigPatch : Type := mkPatch {
  p_app : option jsval;
  p_tasks : option jsval;
  p_folders : option jsval;
  p_presets : option jsval;
  p_dl_fields : option jsval;
  p_paused : option bool
}.

(** Modelled from the spec: [config.setAll(patch)] sets every key the
    patch gives and keeps the others. *)
Definition setAll (p : ConfigPatch) (c : ConfigState) : ConfigState :=
  {| app := default (app c) (p_app p);
     tasks := default (tasks c) (p_tasks p);
     folders := default (folders c) (p_folders p);
     presets := default (presets c) (p_presets p);
     dl_fields := default (dl_fields c) (p_dl_fields p);
     paused := default (paused c) (p_paused p) |}.

(** Modelled from the spec: [config.update(key, value)], one function per
    key the socket stores update: ['paused'], *)
Definition update_paused (b : bool) (c : ConfigState) : ConfigState :=
  {| app := app c; tasks := tasks c; folders := folders c; presets := presets c;
     dl_fields := dl_fields c; paused := b |}.

(** Modelled from the spec: [config.update('presets', value)], *)
Definition update_presets (v : jsval) (c : ConfigState) : ConfigState :=
  {| app := app c; tasks := tasks c; folders := folders c; presets := v;
     dl_fields := dl_fields c; paused := paused c |}.

(** Modelled from the spec: and [config.update('dl_fields', value)]. *)
Definition update_dl_fields (v : jsval) (c : ConfigState) : ConfigState :=
  {| app := app c; tasks := tasks c; folders := folders c; presets := presets c;
     dl_fields := v; paused := paused c |}.

(** The four kinds of notification. *)
Inductive Severity : Type := info | success | warning | error.

(** Modelled from the spec: the notification service ([useNotification]),
    which is not among the sources: a call [toast.<severity>(message,
    options)] raises one notification. The client keeps them in the order
    raised. *)
Record Notification : Type := mkNotification {
  severity : Severity;
  message : jsval;
  options : jsval
}.

(** The client: the three stores the socket store writes to. *)
Record ClientState : Type := mkClient {
  config : ConfigState;
  state : State;
  toasts : list Notification
}.

(** The client before any message. *)
Definition initial : ClientState :=
  {| config := {| app := JUndefined; tasks := JUndefined; folders := JUndefined;
                  presets := JUndefined; dl_fields := JUndefined; paused := false |};
     state := {| st_queue := ∅; st_history := ∅ |};
     toasts := [] |}.

Definition on_config (f : ConfigState -> ConfigState) (c : ClientState) : ClientState :=
  {| config := f (config c); state := state c; toasts := toasts c |}.

Definition on_state (f : State -> State) (c : ClientState) : ClientState :=
  {| config := config c; state := f (state c); toasts := toasts c |}.

(** Modelled from the spec: [toast.info], [toast.success], [toast.warning]
    and [toast.error], by severity: one more notification. *)
Definition toast (k : Severity) (msg opts : jsval) (c : ClientState) : ClientState :=
  {| config := config c; state := state c;
     toasts := toasts c ++ [{| severity := k; message := msg; options := opts |}] |}.

(** [ag(obj, 'title')] on an item or on the empty object [get] defaults
    to: the title, or [null] without one; and the text a template literal
    makes of it. *)
Definition ag_title (o : option StoreItem) : option string := o ≫= title.

Definition template (prefix : string) (v : option string) : jsval :=
  JStr (prefix ++ default "null" v).

(** The envelope [{data: ...}] of the server's events. *)
Record Event (D : Type) : Type := mkEvent { data : D }.
Arguments mkEvent {D} _.
Arguments data {D} _.

(** The snapshot sent on connection. *)
Record Snapshot : Type := mkSnapshot {
  snap_config : jsval;
  snap_tasks : jsval;
  snap_folders : jsval;
  snap_presets : jsval;
  snap_dl_fields : jsval;
  snap_paused : jsval;
  snap_queue : option (gmap string StoreItem);
  snap_done : option (gmap string StoreItem)
}.

(** The payload of [item_moved]. *)
Record Moved : Type := mkMoved { to : string; item : StoreItem }.

(** The payload of [paused] and [resumed]: its [paused] property. *)
Record PauseFlag : Type := mkPauseFlag { flag : jsval }.

(** No Job is in both collections. *)
Definition exclusive (s : State) : Prop :=
  forall k, ~ (has queue k s = true /\ has history k s = true).

(** The state in which one Job is in both collections. *)
Definition in_both (it : StoreItem) : ClientState :=
  {| config := config initial;
     state := {| st_queue := {[ _id it := it ]}; st_history := {[ _id it := it ]} |};
     toasts := [] |}.

(** A Job to run the handlers on. *)
Definition job_a : StoreItem := {| _id := "a"; title := Some "A"; extra := JNull |}.

End Client.

(* --------------------------------------------------------------------- *)
(** ** The socket store (TypeScript) *)
(* --------------------------------------------------------------------- *)

(** Each handler takes the payload as [JSON.parse] returns it and the
    client before, and gives the client after. *)
Module SocketStore.
Import Js Client.

(** [socket.on('connected', ...)] *)
Definition on_connected (json : Event Snapshot) (c : ClientState) : ClientState :=
  let d := data json in
  let c1 := on_config (setAll {| p_app := Some (snap_config d);
                                 p_tasks := Some (snap_tasks d);
                                 p_folders := Some (snap_folders d);
                                 p_presets := Some (snap_presets d);
                                 p_dl_fields := Some (snap_dl_fields d);
                                 p_paused := Some (truthy (snap_paused d)) |}) c in
  let c2 := on_state (addAll queue (default ∅ (snap_queue d))) c1 in
  on_state (addAll history (default ∅ (snap_done d))) c2.

(** [on('item_added', ...)] *)
Definition on_item_added (json : Event StoreItem) (c : ClientState) : ClientState :=
  let id := _id (data json) in
  let c1 := on_state (add queue id (data json)) c in
  toast success (template "Item queued: " (ag_title (get queue id (state c1)))) JUndefined c1.

(** [on(['log_info', 'log_success', 'log_warning', 'log_error'], ..., true)]:
    the handler receives the event's name. [None] is the TypeError of
    [json.data] on a [null] payload, thrown before any notification. *)
Definition on_log (event : string) (json : jsval) (c : ClientState) : option ClientState :=
  let message := js_or (prop_opt json "message") (prop_opt (prop_opt json "data") "message") in
  d ← prop json "data";
  let data := js_or (js_or (prop_opt d "data") d) (JObj []) in
  Some (if String.eqb event "log_info" then toast info message data c
        else if String.eqb event "log_success" then toast success message data c
        else if String.eqb event "log_warning" then toast warning message data c
        else if String.eqb event "log_error" then toast error message data c
        else c).

(** The options the TypeScript store passes on with a log notification:
    [json.data?.data || json.data || {}]. *)
Definition log_options (json : jsval) : jsval :=
  js_or (js_or (prop_opt (prop_opt json "data") "data") (prop_opt json "data")) (JObj []).

(** [on('item_completed', ...)] *)
Definition on_item_completed (json : Event StoreItem) (c : ClientState) : ClientState :=
  let id := _id (data json) in
  let c1 := if has queue id (state c) then on_state (remove queue id) c else c in
  if has history id (state c1) then on_state (update history id (data json)) c1
  else on_state (add history id (data json)) c1.

(** [on('item_cancelled', ...)] *)
Definition on_item_cancelled (json : Event StoreItem) (c : ClientState) : ClientState :=
  let id := _id (data json) in
  if negb (has queue id (state c)) then c
  else
    let c1 := toast warning
                (template "Download cancelled: " (ag_title (get queue id (state c))))
                JUndefined c in
    if has queue id (state c1) then on_state (remove queue id) c1 else c1.

(** [on('item_deleted', ...)] *)
Definition on_item_deleted (json : Event StoreItem) (c : ClientState) : ClientState :=
  let id := _id (data json) in
  if negb (has history id (state c)) then c
  else on_state (remove history id) c.

(** [on('item_updated', ...)] *)
Definition on_item_updated (json : Event StoreItem) (c : ClientState) : ClientState :=
  let id := _id (data json) in
  if has history id (state c) then on_state (update history id (data json)) c
  else if has queue id (state c) then on_state (update queue id (data json)) c
  else c.

(** [on('item_moved', ...)] *)
Definition on_item_moved (json : Event Moved) (c : ClientState) : ClientState :=
  let to := to (data json) in
  let id := _id (item (data json)) in
  let c1 :=
    if String.eqb "queue" to then
      let c' := if has history id (state c) then on_state (remove history id) c else c in
      on_state (add queue id (item (data json))) c'
    else c in
  if String.eqb "history" to then
    let c' := if has queue id (state c1) then on_state (remove queue id) c1 else c1 in
    on_state (add history id (item (data json))) c'
  else c1.

(** [on(['paused', 'resumed'], ..., true)]: the handler receives the
    event's name. *)
Definition on_paused_resumed (event : string) (json : Event PauseFlag) (c : ClientState)
  : ClientState :=
  let pausedState := truthy (flag (data json)) in
  let c1 := on_config (update_paused pausedState) c in
  if String.eqb "resumed" event then
    toast success (JStr "Download queue resumed.") JUndefined c1
  else
    toast warning (JStr "Download queue paused.") (JObj [("timeout", JNum 10000)]) c1.

(** [on('presets_update', ...)] and [on('dlfields_update', ...)] *)
Definition on_presets_update (json : Event jsval) (c : ClientState) : ClientState :=
  on_config (update_presets (js_or (data json) (JArr []))) c.

Definition on_dlfields_update (json : Event jsval) (c : ClientState) : ClientState :=
  on_config (update_dl_fields (js_or (data json) (JArr []))) c.

(** The events the store subscribes to, with their payloads. *)
Inductive message : Type :=
| connected (json : Event Snapshot)
| item_added (json : Event StoreItem)
| log (k : Severity) (json : jsval)
| item_completed (json : Event StoreItem)
| item_cancelled (json : Event StoreItem)
| item_deleted (json : Event StoreItem)
| item_updated (json : Event StoreItem)
| item_moved (json : Event Moved)
| pause_event (is_paused : bool) (json : Event PauseFlag)
| presets_update (json : Event jsval)
| dlfields_update (json : Event jsval).

Definition log_event (k : Severity) : string :=
  match k with
  | info => "log_info"
  | success => "log_success"
  | warning => "log_warning"
  | error => "log_error"
  end.

(** The name of the event: ['paused'] or ['resumed']. *)
Definition pause_event_name (is_paused : bool) : string :=
  if is_paused then "paused" else "resumed".

(** One message received: a handler that throws leaves the client as it
    was. *)
Definition receive (c : ClientState) (m : message) : ClientState :=
  match m with
  | connected json => on_connected json c
  | item_added json => on_item_added json c
  | log k json => default c (on_log (log_event k) json c)
  | item_completed json => on_item_completed json c
  | item_cancelled json => on_item_cancelled json c
  | item_deleted json => on_item_deleted json c
  | item_updated json => on_item_updated json c
  | item_moved json => on_item_moved json c
  | pause_event b json => on_paused_resumed (pause_event_name b) json c
  | presets_update json => on_presets_update json c
  | dlfields_update json => on_dlfields_update json c
  end.

Definition receive_all (c : ClientState) (l : list message) : ClientState :=
  fold_left receive l c.

End SocketStore.

(* --------------------------------------------------------------------- *)
(** ** The older socket store (JavaScript) *)
(* --------------------------------------------------------------------- *)

(** Its payloads carry no [data] envelope. *)
Module LegacySocketStore.
Import Js Client.

(** [socket.value.on('initial_data', ...)] *)
Definition on_initial_data (initialData : Snapshot) (c : ClientState) : ClientState :=
  let c1 := on_config (setAll {| p_app := Some (snap_config initialData);
                                 p_tasks := Some (snap_tasks initialData);
                                 p_folders := Some (snap_folders initialData);
                                 p_presets := Some (snap_presets initialData);
                                 p_dl_fields := None;
                                 p_paused := Some (truthy (snap_paused initialData)) |}) c in
  let c2 := on_state (addAll queue (default ∅ (snap_queue initialData))) c1 in
  on_state (addAll history (default ∅ (snap_done initialData))) c2.

(** [socket.value.on('added', ...)] *)
Definition on_added (item : StoreItem) (c : ClientState) : ClientState :=
  let c1 := on_state (add queue (_id item) item) c in
  toast success (template "Item queued: " (ag_title (get queue (_id item) (state c1))))
    JUndefined c1.

(** [socket.value.on('log_info', ...)] and its three siblings. *)
Definition on_log_info (json : jsval) (c : ClientState) : ClientState :=
  toast info (prop_opt json "message") JUndefined c.

Definition on_log_success (json : jsval) (c : ClientState) : ClientState :=
  toast success (prop_opt json "message") JUndefined c.

Definition on_log_warning (json : jsval) (c : ClientState) : ClientState :=
  toast warning (prop_opt json "message") JUndefined c.

Definition on_log_error (json : jsval) (c : ClientState) : ClientState :=
  toast error (prop_opt json "message") JUndefined c.

Definition on_log (k : Severity) : jsval -> ClientState -> ClientState :=
  match k with
  | info => on_log_info
  | success => on_log_success
  | warning => on_log_warning
  | error => on_log_error
  end.

(** [socket.value.on('completed', ...)] *)
Definition on_completed (item : StoreItem) (c : ClientState) : ClientState :=
  let c1 := if has queue (_id item) (state c) then on_state (remove queue (_id item)) c else c in
  on_state (add history (_id item) item) c1.

(** [socket.value.on('cancelled', ...)] *)
Definition on_cancelled (item : StoreItem) (c : ClientState) : ClientState :=
  let id := _id item in
  if negb (has queue id (state c)) then c
  else
    let c1 := toast warning
                (template "Download cancelled: " (ag_title (get queue id (state c))))
                JUndefined c in
    if has queue id (state c1) then on_state (remove queue id) c1 else c1.

(** [socket.value.on('cleared', ...)] *)
Definition on_cleared (item : StoreItem) (c : ClientState) : ClientState :=
  let id := _id item in
  if negb (has history id (state c)) then c
  else on_state (remove history id) c.

(** [socket.value.on('paused', ...)] *)
Definition on_paused (json : PauseFlag) (c : ClientState) : ClientState :=
  let pausedState := truthy (flag json) in
  let c1 := on_config (update_paused pausedState) c in
  if negb pausedState then
    toast success (JStr "Download queue resumed.") JUndefined c1
  else
    toast warning (JStr "Download queue paused.") (JObj [("timeout", JNum 10000)]) c1.

End LegacySocketStore.

(* --------------------------------------------------------------------- *)
(** ** The utility module: trimming and [uri] *)
(* --------------------------------------------------------------------- *)

Module Utils.

(** The [position] argument of [iTrim]: ['start' | 'end' | 'both']. *)
Inductive Position : Type := at_start | at_end | both.

(** The character class [[${delim}]] that [iTrim] builds for a delimiter of
    one character: [']'] and ['\'] are escaped and stand for themselves,
    ['^'] alone makes the class [[^]], which matches every character, and
    any other character stands for itself. *)
Definition in_class (delim c : ascii) : bool :=
  if Ascii.eqb delim "^" then true else Ascii.eqb c delim.

(** [str.replace(new RegExp(`^[${delim}]+`, 'g'), '')] *)
Fixpoint trim_start (p : ascii -> bool) (s : string) : string :=
  match s with
  | EmptyString => EmptyString
  | String c r => if p c then trim_start p r else s
  end.

(** [str.replace(new RegExp(`[${delim}]+$`, 'g'), '')] *)
Fixpoint trim_end (p : ascii -> bool) (s : string) : string :=
  match s with
  | EmptyString => EmptyString
  | String c r =>
      match trim_end p r with
      | EmptyString => if p c then EmptyString else String c EmptyString
      | r' => String c r'
      end
  end.

(** Every character of [s] passes [p]. *)
Fixpoint all_chars (p : ascii -> bool) (s : string) : bool :=
  match s with
  | EmptyString => true
  | String c r => p c && all_chars p r
  end.

(** [iTrim(str, delim, position)], for a delimiter of one character (the
    only use the module makes of it), so that the test for an empty
    delimiter never throws. *)
Definition iTrim (str : string) (delim : ascii) (position : Position) : string :=
  if String.eqb str "" then str
  else
    let str1 :=
      match position with
      | both | at_start => trim_start (in_class delim) str
      | at_end => str
      end in
    match position with
    | both | at_end => trim_end (in_class delim) str1
    | at_start => str1
    end.

Definition eTrim (str : string) (delim : ascii) : string := iTrim str delim at_end.

Definition sTrim (str : string) (delim : ascii) : string := iTrim str delim at_start.

(** [uri(u)], with [runtimeConfig.app.baseURL] as a parameter. *)
Definition uri (baseURL : string) (u : string) : string :=
  if String.eqb u "" || String.eqb "/" baseURL || negb (String.prefix "/" u) then u
  else if String.prefix baseURL u then u
  else eTrim baseURL "/" ++ "/" ++ sTrim u "/".

(** A base URL on which [uri] is stable: it does not begin with ["/"], or
    it is made of ["/"] only, or it has at most one ["/"] at its end. In
    terms of the base without its trailing ["/"]: that does not begin with
    ["/"] (as when it is empty), or it makes the base again once a single
    ["/"] is put back. *)
Definition stable_base (baseURL : string) : bool :=
  let e := eTrim baseURL "/" in
  negb (String.prefix "/" e) || String.prefix baseURL (e ++ "/").

End Utils.

(* --------------------------------------------------------------------- *)
(** ** The utility module: [encode] and [decode] *)
(* --------------------------------------------------------------------- *)

Module Base64.
Import Utils.

Local Open Scope N_scope.

Definition b64_alphabet : string :=
  "ABCDEFGHIJKLMNOPQRSTUVWXYZabcdefghijklmnopqrstuvwxyz0123456789+/".

(** The character of a 6-bit value, and back. *)
Definition b64_char (n : N) : ascii :=
  match String.get (N.to_nat n) b64_alphabet with
  | Some c => c
  | None => "="%char
  end.

Definition b64_index (c : ascii) : option N :=
  option_map N.of_nat (String.index 0 (String c EmptyString) b64_alphabet).

(** The 6-bit groups of a binary string: three bytes make four groups, a
    last byte makes two and two last bytes make three, filled with zero
    bits. *)
Fixpoint sextets (s : string) : list N :=
  match s with
  | EmptyString => []
  | String a EmptyString =>
      let x := N_of_ascii a in
      [x / 4; (x mod 4) * 16]
  | String a (String b EmptyString) =>
      let x := N_of_ascii a in
      let y := N_of_ascii b in
      [x / 4; (x mod 4) * 16 + y / 16; (y mod 16) * 4]
  | String a (String b (String c r)) =>
      let x := N_of_ascii a in
      let y := N_of_ascii b in
      let z := N_of_ascii c in
      x / 4 :: (x mod 4) * 16 + y / 16 :: (y mod 16) * 4 + z / 64 :: z mod 64 :: sextets r
  end.

Definition padding (len : nat) : string :=
  match Nat.modulo len 3 with
  | 1%nat => "=="
  | 2%nat => "="
  | _ => ""
  end.

(** [btoa(binary)]. A Rocq string is a string of bytes, so the
    [InvalidCharacterError] of a character above 255 cannot happen. *)
Definition btoa (binary : string) : string :=
  string_of_list_ascii (map b64_char (sextets binary)) ++ padding (String.length binary).

(** [atob(data)], the forgiving base64 decoding: *)

(** 1. ASCII whitespace (tab, line feed, form feed, carriage return, space)
    is removed; *)
Definition is_ascii_whitespace (c : ascii) : bool :=
  let n := N_of_ascii c in
  (n =? 9) || (n =? 10) || (n =? 12) || (n =? 13) || (n =? 32).

Fixpoint remove_whitespace (s : string) : string :=
  match s with
  | EmptyString => EmptyString
  | String c r =>
      if is_ascii_whitespace c then remove_whitespace r else String c (remove_whitespace r)
  end.

(** 2. if the length is a multiple of four, one or two ["="] at the end
    are removed; *)
Fixpoint drop_last_eq (s : string) : string :=
  match s with
  | EmptyString => EmptyString
  | String c r =>
      match r with
      | EmptyString => if Ascii.eqb c "=" then EmptyString else s
      | _ => String c (drop_last_eq r)
      end
  end.

Definition strip_padding (s : string) : string :=
  if Nat.eqb (Nat.modulo (String.length s) 4) 0 then drop_last_eq (drop_last_eq s) else s.

(** 3. and 4. a length of one more than a multiple of four fails, and so
    does a character outside the alphabet; *)
Fixpoint indices (s : string) : option (list N) :=
  match s with
  | EmptyString => Some []
  | String c r =>
      match b64_index c, indices r with
      | Some n, Some l => Some (n :: l)
      | _, _ => None
      end
  end.

(** 5. four groups make three bytes; two or three last groups make one or
    two bytes, their spare bits dropped. *)
Fixpoint octets (l : list N) : string :=
  match l with
  | a :: b :: c :: d :: r =>
      String (ascii_of_N (a * 4 + b / 16))
        (String (ascii_of_N ((b mod 16) * 16 + c / 4))
           (String (ascii_of_N ((c mod 4) * 64 + d)) (octets r)))
  | [a; b; c] =>
      String (ascii_of_N (a * 4 + b / 16))
        (String (ascii_of_N ((b mod 16) * 16 + c / 4)) EmptyString)
  | [a; b] => String (ascii_of_N (a * 4 + b / 16)) EmptyString
  | _ => EmptyString
  end.

Definition atob (data : string) : option string :=
  let d := strip_padding (remove_whitespace data) in
  if Nat.eqb (Nat.modulo (String.length d) 4) 1 then None
  else option_map octets (indices d).

(** [s.replace(/a/g, b)] for characters [a] and [b]. *)
Fixpoint replace_all (a b : ascii) (s : string) : string :=
  match s with
  | EmptyString => EmptyString
  | String c r => String (if Ascii.eqb c a then b else c) (replace_all a b r)
  end.

Fixpoint repeat_char (c : ascii) (n : nat) : string :=
  match n with
  | O => EmptyString
  | S k => String c (repeat_char c k)
  end.

(** [s.padEnd(target, c)] for a character [c]. *)
Definition padEnd (s : string) (target : nat) (c : ascii) : string :=
  s ++ repeat_char c (target - String.length s).

(** The functions of the JavaScript platform that [encode] and [decode]
    call and this development does not open: [JSON.stringify],
    [JSON.parse] ([None] when it throws), [TextEncoder.encode] and
    [TextDecoder.decode]. UTF-8 decoding undoes UTF-8 encoding on the
    text [JSON.stringify] returns, which is well-formed. *)
Record Platform : Type := mkPlatform {
  jsobject : Type;
  jsstring : Type;
  JSON_stringify : jsobject -> jsstring;
  JSON_parse : jsstring -> option jsobject;
  utf8_encode : jsstring -> list Byte.byte;
  utf8_decode : list Byte.byte -> jsstring;
  utf8_decode_encode :
    forall obj, utf8_decode (utf8_encode (JSON_stringify obj)) = JSON_stringify obj
}.

(** The characters of a binary string's base64 text, before padding. *)
Definition body (binary : string) : string :=
  string_of_list_ascii (map b64_char (sextets binary)).

(** The characters [encode] and [decode] treat specially. *)
Definition plain (c : ascii) : bool :=
  negb (is_ascii_whitespace c) && negb (Ascii.eqb c "=")
  && negb (Ascii.eqb c "-") && negb (Ascii.eqb c "_").

Definition not_eq_sign (c : ascii) : bool := negb (Ascii.eqb c "=").

(** The alphabet: each of the 64 characters has its index, and none is
    whitespace, ["="], ["-"] or ["_"]. *)
Definition char_ok (n : N) : bool :=
  match b64_index (b64_char n) with
  | Some m => m =? n
  | None => false
  end && plain (b64_char n).

Section Codec.
Variable P : Platform.

(** [encode(obj)] *)
Definition encode (obj : jsobject P) : string :=
  let jsonStr := JSON_stringify P obj in
  let utf8Bytes := utf8_encode P jsonStr in
  let binary := string_of_list_byte utf8Bytes in
  let base64 := btoa binary in
  trim_end (Ascii.eqb "=") (replace_all "/" "_" (replace_all "+" "-" base64)).

(** [decode(str)]; [None] when [atob] or [JSON.parse] throws. *)
Definition decode (str : string) : option (jsobject P) :=
  let base64 :=
    padEnd (replace_all "_" "/" (replace_all "-" "+" str))
      (String.length str + Nat.modulo (4 - Nat.modulo (String.length str) 4) 4) "=" in
  match atob base64 with
  | None => None
  | Some binary =>
      let bytes := list_byte_of_string binary in
      let jsonStr := utf8_decode P bytes in
      JSON_parse P jsonStr
  end.

(** An object is JSON-serializable when [JSON.parse] gives it back from
    the text [JSON.stringify] makes of it. *)
Definition json_serializable (obj : jsobject P) : Prop :=
  JSON_parse P (JSON_stringify P obj) = Some obj.

End Codec.

(** A fragment of the platform to run [encode] and [decode] on: the objects
    [{}] and [{"paused": b}], whose JSON text is ASCII and so is its own
    UTF-8 encoding. *)
Inductive sample_object : Type := empty_object | paused_object (b : bool).

(** The double quote, and the JSON text of a key. *)
Definition quoted (key : string) : string :=
  String "034"%char key ++ String "034"%char EmptyString.

Definition sample_stringify (o : sample_object) : string :=
  match o with
  | empty_object => "{}"
  | paused_object true => "{" ++ quoted "paused" ++ ":true}"
  | paused_object false => "{" ++ quoted "paused" ++ ":false}"
  end.

Definition sample_parse (s : string) : option sample_object :=
  if String.eqb s "{}" then Some empty_object
  else if String.eqb s ("{" ++ quoted "paused" ++ ":true}") then Some (paused_object true)
  else if String.eqb s ("{" ++ quoted "paused" ++ ":false}") then Some (paused_object false)
  else None.

Definition sample_platform : Platform :=
  {| jsobject := sample_object;
     jsstring := string;
     JSON_stringify := sample_stringify;
     JSON_parse := sample_parse;
     utf8_encode := list_byte_of_string;
     utf8_decode := string_of_list_byte;
     utf8_decode_encode := fun o => string_of_list_byte_of_string (sample_stringify o) |}.

End Base64.

(* --------------------------------------------------------------------- *)
(** ** The utility module: paths *)
(* --------------------------------------------------------------------- *)

Module Paths.
Import Utils Base64.

(** Whether the first, or the last, character of [s] passes [p]; false on
    the empty string. *)
Definition head_in (p : ascii -> bool) (s : string) : bool :=
  match s with
  | EmptyString => false
  | String c _ => p c
  end.

Fixpoint last_in (p : ascii -> bool) (s : string) : bool :=
  match s with
  | EmptyString => false
  | String c EmptyString => p c
  | String _ r => last_in p r
  end.

(** [s.split(sep)] for a separator of one character: the segments between
    the separators, at least one. *)
Fixpoint split (sep : ascii) (s : string) : list string :=
  match s with
  | EmptyString => [EmptyString]
  | String c r =>
      if Ascii.eqb c sep then EmptyString :: split sep r
      else
        match split sep r with
        | h :: t => String c h :: t
        | [] => [String c EmptyString]
        end
  end.

(** [base.endsWith(ext)] *)
Definition endsWith (base ext : string) : bool :=
  String.eqb (substring (String.length base - String.length ext) (String.length ext) base) ext
  && Nat.leb (String.length ext) (String.length base).

(** The loop of [basename]: while segments are left and [base] is empty,
    [base] is the next segment popped. The segments come last first. *)
Fixpoint pop_while_empty (segments : list string) (base : string) : string :=
  match segments with
  | [] => base
  | seg :: rest => if String.eqb base "" then pop_while_empty rest seg else base
  end.

(** [basename(path, ext)] *)
Definition basename (path ext : string) : string :=
  if String.eqb path "" then ""
  else
    let segments := rev (split "/" (replace_all "\" "/" path)) in
    let base :=
      match segments with
      | [] => ""
      | seg :: rest => pop_while_empty rest seg
      end in
    if negb (String.eqb ext "") && endsWith base ext && negb (String.eqb base ext)
    then substring 0 (String.length base - String.length ext) base
    else base.

(** The last segment that [basename] keeps, before the extension is
    looked at. *)
Definition last_segment (path : string) : string :=
  match rev (split "/" (replace_all "\" "/" path)) with
  | [] => ""
  | seg :: rest => pop_while_empty rest seg
  end.

(** [s.lastIndexOf(c)] for a character [c]: [-1] when it does not occur. *)
Fixpoint lastIndexOf (c : ascii) (s : string) : Z :=
  match s with
  | EmptyString => (-1)%Z
  | String a r =>
      let i := lastIndexOf c r in
      if (0 <=? i)%Z then (i + 1)%Z
      else if Ascii.eqb a c then 0%Z
      else (-1)%Z
  end.

(** [dirname(filePath)] *)
Definition dirname (filePath : string) : string :=
  let lastIndex := Z.max (lastIndexOf "/" filePath) (lastIndexOf "\" filePath) in
  if (lastIndex =? -1)%Z then "."
  else if (lastIndex =? 0)%Z then
    match String.get 0 filePath with
    | Some c => String c EmptyString
    | None => "."
    end
  else substring 0 (Z.to_nat lastIndex) filePath.

(** A character that is not a path separator. *)
Definition not_separator (c : ascii) : bool :=
  negb (Ascii.eqb c "/") && negb (Ascii.eqb c "\").

End Paths.

(* --------------------------------------------------------------------- *)
(** ** The utility module: pagination and identifiers *)
(* --------------------------------------------------------------------- *)

Module Pagination.
Import Base64.

(** An entry of the list [makePagination] returns. *)
Record PageItem : Type := mkPageItem {
  page : Z;
  text : string;
  selected : bool
}.

(** [`${n}`] for an integer [n]. *)
Definition number_text (n : Z) : string :=
  DecimalString.NilZero.string_of_int (Z.to_int n).

(** The entry that stands for the pages left out. *)
Definition gap_item (strR : string) : PageItem :=
  {| page := 0; text := strR; selected := false |}.

(** The entry of page [i]. *)
Definition page_item (current i : Z) : PageItem :=
  {| page := i; text := "Page #" ++ number_text i; selected := Z.eqb i current |}.

(** Whether the loop lists page [i]: the first page, the last one, and the
    pages from [left] up to [right], [right] left out. *)
Definition listed (current last delta i : Z) : bool :=
  Z.eqb 1 i || Z.eqb last i
  || (Z.leb (current - delta) i && Z.ltb i (current + delta + 1)).

(** What one turn of the loop, for page [i], pushes. *)
Definition loop_body (current last delta : Z) (strR : string) (i : Z) : list PageItem :=
  let left := (current - delta)%Z in
  let right := (current + delta + 1)%Z in
  if listed current last delta i then
    ((if Z.eqb i left && Z.ltb 2 i then [gap_item strR] else [])
       ++ [page_item current i]
       ++ (if Z.eqb i (right - 1) && Z.ltb i (last - 1) then [gap_item strR] else []))%list
  else [].

(** The values of [i] in [for (let i = 1; i <= last; i++)]. *)
Definition page_numbers (last : Z) : list Z := map Z.of_nat (seq 1 (Z.to_nat last)).

(** [makePagination(current, last, delta)], on integers. *)
Definition makePagination (current last delta : Z) : list PageItem :=
  if Z.ltb last 2 then []
  else
    let strR := repeat_char "-" (9 + String.length (number_text last)) in
    flat_map (loop_body current last delta strR) (page_numbers last).

(** The entries that are pages, not gaps. *)
Definition is_page (e : PageItem) : bool := negb (Z.eqb (page e) 0).

End Pagination.

Module Ids.
Import Base64.

(** [n.toString(16)] for a natural number. *)
Definition toString16 (n : N) : string :=
  HexadecimalString.NilEmpty.string_of_uint (N.to_hex_uint n).

(** [s.padStart(target, c)] for a character [c]. *)
Definition padStart (s : string) (target : nat) (c : ascii) : string :=
  repeat_char c (target - String.length s) ++ s.

(** [dec2hex(dec)] *)
Definition dec2hex (dec : N) : string := padStart (toString16 dec) 2 "0".

(** [makeId(len)], given what [crypto.getRandomValues] puts in the array:
    [random i] is the value drawn for index [i], kept to a byte by the
    [Uint8Array], which has [len / 2] elements, the fraction dropped. *)
Definition makeId (random : nat -> N) (len : nat) : string :=
  String.concat "" (map (fun i => dec2hex (random i mod 256)%N) (seq 0 (len / 2))).

(** The digits of lowercase hexadecimal. *)
Definition is_hex_digit (c : ascii) : bool :=
  let n := N_of_ascii c in
  ((48 <=? n) && (n <=? 57) || (97 <=? n) && (n <=? 102))%N.

(** The value of two hexadecimal digits, as [parseInt(s, 16)] reads them. *)
Definition hex_digit_value (c : ascii) : N :=
  let n := N_of_ascii c in
  (if n <? 58 then n - 48 else n - 87)%N.

Definition hex_pair_value (s : string) : N :=
  match s with
  | String a (String b EmptyString) => (hex_digit_value a * 16 + hex_digit_value b)%N
  | _ => 0%N
  end.

(** What is checked of [dec2hex] on each byte. *)
Definition byte_ok (n : N) : bool :=
  Nat.eqb (String.length (dec2hex n)) 2
  && Utils.all_chars is_hex_digit (dec2hex n)
  && N.eqb (hex_pair_value (dec2hex n)) n.

End Ids.

Module UrlSafe.
Import Base64.

(** The characters of URL-safe base64 text: letters, digits, ["-"] and
    ["_"]. *)
Definition is_url_safe (c : ascii) : bool :=
  let n := N_of_ascii c in
  ((65 <=? n) && (n <=? 90) || (97 <=? n) && (n <=? 122) || (48 <=? n) && (n <=? 57)
   || (n =? 45) || (n =? 95))%N.

(** What [encode] makes of the character of a 6-bit value. *)
Definition url_char (n : N) : ascii :=
  let c := b64_char n in
  let c1 := if Ascii.eqb c "+" then "-"%char else c in
  if Ascii.eqb c1 "/" then "_"%char else c1.

End UrlSafe.

(* --------------------------------------------------------------------- *)
(** ** The socket store: what each message may touch *)
(* --------------------------------------------------------------------- *)

Module Messages.
Import Js Client SocketStore.

(** The messages whose handler writes to the configuration store. *)
Definition writes_config (m : message) : bool :=
  match m with
  | connected _ | pause_event _ _ | presets_update _ | dlfields_update _ => true
  | _ => false
  end.

(** The messages whose handler writes to the state store. *)
Definition writes_state (m : message) : bool :=
  match m with
  | connected _ | item_added _ | item_completed _ | item_cancelled _
  | item_deleted _ | item_updated _ | item_moved _ => true
  | _ => false
  end.

(** The two messages that can put a Job in both collections, and when they
    do not: a snapshot whose queue and history share no id, and a Job
    added that is not in the history. *)
Definition keeps_apart (m : message) (c : ClientState) : Prop :=
  match m with
  | connected json =>
      dom (default ∅ (snap_queue (data json))) ## dom (default ∅ (snap_done (data json)))
  | item_added json => has history (_id (data json)) (state c) = false
  | _ => True
  end.

End Messages.

Module Times.
Import Pagination Ids.

Local Open Scope Z_scope.

(** [pad(n)] of [formatTime]: [n.toString().padStart(2, '0')]. *)
Definition pad (n : Z) : string := padStart (number_text n) 2 "0".

(** [formatTime(seconds)] for a whole number of seconds: [Math.floor] of a
    quotient is [Z.div], and [%], which takes the sign of the dividend, is
    [Z.rem]. For seconds that are not negative the fraction plays no part:
    the three fields are those of the seconds rounded down. *)
Definition formatTime (seconds : Z) : string :=
  let hrs := seconds / 3600 in
  let mins := Z.rem seconds 3600 / 60 in
  let secs := Z.rem seconds 60 in
  if 0 <? hrs then pad hrs ++ ":" ++ pad mins ++ ":" ++ pad secs
  else if 0 <? mins then pad mins ++ ":" ++ pad secs
  else number_text secs.

(** What is checked of [pad] and of the text of a number below 100. *)
Definition two_digits_ok (k : nat) : bool :=
  Nat.eqb (String.length (pad (Z.of_nat k))) 2
  && Nat.eqb (String.length (number_text (Z.of_nat k))) (if Nat.ltb k 10 then 1 else 2).

End Times.

(* ===================================================================== *)
(** * Part II. Theorems *)
(* ===================================================================== *)

Module EngineFacts.
Import Engine.

Lemma count_app p l1 l2 : count p (l1 ++ l2) = count p l1 + count p l2.
Proof. induction l1 as [|j r IH]; simpl; [reflexivity | rewrite IH; lia]. Qed.

Lemma downloading_le_busy l : count is_downloading l <= count holds_slot l.
Proof.
  induction l as [|[i s] r IH]; simpl; [lia|].
  destruct s; cbn; lia.
Qed.

(** A map that never hands out a slot does not raise the number of busy
    slots. *)
Lemma count_map_le (f : Job -> Job) l :
  (forall j, holds_slot (f j) = true -> holds_slot j = true) ->
  count holds_slot (map f l) <= count holds_slot l.
Proof.
  intros Hf. induction l as [|j r IH]; simpl; [lia|].
  specialize (Hf j). destruct (holds_slot (f j)), (holds_slot j); lia.
Qed.

Lemma count_filter_le (q : Job -> bool) l :
  count holds_slot (List.filter q l) <= count holds_slot l.
Proof.
  induction l as [|j r IH]; simpl; [lia|].
  destruct (q j); simpl; lia.
Qed.

Lemma on_job_le id f l :
  (forall s, match f s with downloading | postprocessing => true | _ => false end = true ->
             match s with downloading | postprocessing => true | _ => false end = true) ->
  count holds_slot (on_job id f l) <= count holds_slot l.
Proof.
  intros Hf. apply count_map_le. intros j.
  destruct (Nat.eqb (job_id j) id); [|tauto].
  unfold holds_slot; simpl. apply Hf.
Qed.

(** Dispatch occupies at most one more slot. *)
Lemma start_oldest_le l : count holds_slot (start_oldest l) <= S (count holds_slot l).
Proof.
  induction l as [|j r IH]; simpl; [lia|].
  destruct j as [i s]; destruct s; simpl; unfold holds_slot in *; simpl; lia.
Qed.

Lemma step_pool_size e a : pool_size (step e a) = pool_size e.
Proof.
  destruct a; simpl; try reflexivity.
  destruct (paused e); [reflexivity|].
  destruct (Nat.ltb (busy_slots e) (pool_size e)); reflexivity.
Qed.

(** The invariant of the dispatcher: the busy slots never exceed the
    pool. *)
Lemma step_busy e a : busy_slots e <= pool_size e -> busy_slots (step e a) <= pool_size (step e a).
Proof.
  intros H. rewrite step_pool_size. unfold busy_slots in *.
  destruct a; simpl; try assumption.
  - rewrite count_app. cbn. lia.
  - destruct (paused e); [assumption|].
    destruct (Nat.ltb_spec (busy_slots e) (pool_size e)) as [Hlt|Hge]; simpl; [|assumption].
    unfold busy_slots in Hlt. pose proof (start_oldest_le (jobs e)). lia.
  - etransitivity; [apply on_job_le|exact H]. intros []; simpl; congruence.
  - etransitivity; [apply on_job_le|exact H]. intros []; simpl; congruence.
  - etransitivity; [apply on_job_le|exact H]. intros []; simpl; congruence.
  - etransitivity; [apply on_job_le|]. { intros []; simpl; congruence. }
    etransitivity; [apply count_filter_le|exact H].
  - etransitivity; [apply count_filter_le|exact H].
  - etransitivity; [apply count_map_le|exact H].
    intros [i s]; destruct s; unfold holds_slot; simpl; congruence.
Qed.

Lemma run_busy l : forall e, busy_slots e <= pool_size e ->
  busy_slots (run e l) <= pool_size (run e l).
Proof.
  induction l as [|a r IH]; intros e H; simpl; [assumption|].
  apply IH, step_busy, H.
Qed.

Lemma run_pool_size l : forall e, pool_size (run e l) = pool_size e.
Proof.
  induction l as [|a r IH]; intros e; simpl; [reflexivity|].
  rewrite IH. apply step_pool_size.
Qed.

Lemma run_downloading_le_busy N l :
  downloading_count (run (init N) l) <= busy_slots (run (init N) l)
  /\ busy_slots (run (init N) l) <= N.
Proof.
  split; [apply downloading_le_busy|].
  pose proof (run_busy l (init N)) as Hb.
  rewrite run_pool_size in Hb. apply Hb. cbn. lia.
Qed.

(** C1. For every pool size [N] and every engine state reached from the
    initial state by any sequence of actions, the number of Jobs whose
    status is downloading is at most [N]. *)
Theorem downloading_bounded_by_pool :
  forall (N : nat) (l : list action), downloading_count (run (init N) l) <= N.
Proof.
  intros N l. destruct (run_downloading_le_busy N l). lia.
Qed.

(** The same for the Jobs that hold a slot, phrased on [reachable]. *)
Corollary reachable_busy_bounded N e :
  reachable N e -> downloading_count e <= busy_slots e <= N.
Proof. intros [l ->]. apply run_downloading_le_busy. Qed.

(** The bound is attained: with two slots and three submissions, two Jobs
    download and the third waits. *)
Example pool_of_two_saturates :
  let e := run (init 2) [Submit; Submit; Submit; Dispatch; Dispatch; Dispatch] in
  downloading_count e = 2 /\ map status (jobs e) = [downloading; downloading; pending].
Proof. split; reflexivity. Qed.

(** Pause blocks new dispatch and never preempts a running Job. *)
Example pause_blocks_dispatch :
  map status (jobs (run (init 2) [Submit; Dispatch; Pause; Submit; Dispatch]))
  = [downloading; pending].
Proof. reflexivity. Qed.

End EngineFacts.

(* --------------------------------------------------------------------- *)
(** ** The state store *)
(* --------------------------------------------------------------------- *)

Module StoreFacts.
Import Js Client.

Lemma coll_set_coll t m s : coll t (set_coll t m s) = m.
Proof. destruct t; reflexivity. Qed.

Lemma coll_set_coll_other t m s : coll (other t) (set_coll t m s) = coll (other t) s.
Proof. destruct t; reflexivity. Qed.

Lemma has_true t k s : has t k s = true <-> is_Some (coll t s !! k).
Proof. unfold has. apply bool_decide_eq_true. Qed.

Lemma has_false t k s : has t k s = false <-> coll t s !! k = None.
Proof.
  unfold has. rewrite bool_decide_eq_false, <- eq_None_not_Some. reflexivity.
Qed.

Lemma has_add t k v s : has t k (add t k v s) = true.
Proof.
  apply has_true. unfold add. rewrite coll_set_coll, lookup_insert_eq. eauto.
Qed.

Lemma get_add t k v s : get t k (add t k v s) = Some v.
Proof. unfold get, add. rewrite coll_set_coll. apply lookup_insert_eq. Qed.

Lemma get_update t k v s : get t k (update t k v s) = Some v.
Proof. apply get_add. Qed.

Lemma has_remove t k s : has t k (remove t k s) = false.
Proof.
  apply has_false. unfold remove. rewrite coll_set_coll. apply lookup_delete_eq.
Qed.

Lemma coll_set_coll_ne t t' m s : t <> t' -> coll t (set_coll t' m s) = coll t s.
Proof. destruct t, t'; congruence || reflexivity. Qed.

Lemma coll_add_ne t t' k v s : t <> t' -> coll t (add t' k v s) = coll t s.
Proof. apply coll_set_coll_ne. Qed.

Lemma coll_remove_ne t t' k s : t <> t' -> coll t (remove t' k s) = coll t s.
Proof. apply coll_set_coll_ne. Qed.

Lemma has_add_ne t t' k k' v s : t <> t' -> has t k (add t' k' v s) = has t k s.
Proof. intros H. unfold has. rewrite coll_add_ne by exact H. reflexivity. Qed.

Lemma has_remove_ne t t' k k' s : t <> t' -> has t k (remove t' k' s) = has t k s.
Proof. intros H. unfold has. rewrite coll_remove_ne by exact H. reflexivity. Qed.

Lemma has_get t k s : has t k s = true <-> is_Some (get t k s).
Proof. apply has_true. Qed.

(** Removing a key that is not there changes nothing. *)
Lemma remove_absent t k s : has t k s = false -> remove t k s = s.
Proof.
  intros H%has_false. unfold remove. rewrite delete_id by exact H.
  destruct t, s; reflexivity.
Qed.

(** [truthy] on a boolean is the boolean. *)
Lemma truthy_bool b : truthy (JBool b) = b.
Proof. reflexivity. Qed.

(** A string is truthy unless it is empty. *)
Lemma truthy_str s : truthy (JStr s) = true <-> s <> "".
Proof.
  simpl. rewrite negb_true_iff. split.
  - intros H ->. discriminate.
  - intros H. destruct (String.eqb_spec s ""); congruence.
Qed.

End StoreFacts.

(* --------------------------------------------------------------------- *)
(** ** The socket stores *)
(* --------------------------------------------------------------------- *)

Module SocketFacts.
Import Js Client StoreFacts.
Module TS := SocketStore.
Module JS := LegacySocketStore.

Lemma item_moved_membership (d : StateType) (it : StoreItem) (c : ClientState) :
  let c' := TS.on_item_moved (mkEvent {| to := type_name d; item := it |}) c in
  has d (_id it) (state c') = true
  /\ get d (_id it) (state c') = Some it
  /\ has (other d) (_id it) (state c') = false.
Proof.
  unfold TS.on_item_moved. cbn [data to item].
  destruct d; cbn [type_name String.eqb Ascii.eqb Bool.eqb]; cbn -[add remove has get].
  - destruct (has history (_id it) (state c)) eqn:Hh; cbn -[add remove has get];
      rewrite has_add, get_add, has_add_ne by discriminate.
    + rewrite has_remove. auto.
    + rewrite Hh. auto.
  - destruct (has queue (_id it) (state c)) eqn:Hq; cbn -[add remove has get];
      rewrite has_add, get_add, has_add_ne by discriminate.
    + rewrite has_remove. auto.
    + rewrite Hq. auto.
Qed.

(** C2. For every [item_moved] event with destination [d], queue or
    history, and every client state, after the handler the item is in
    collection [d], bound to the item moved, and not in the other
    collection: it is in exactly one of the two. *)
Theorem item_moved_in_exactly_one :
  forall (d : StateType) (it : StoreItem) (c : ClientState),
    let c' := TS.on_item_moved (mkEvent {| to := type_name d; item := it |}) c in
    has d (_id it) (state c') = true
    /\ get d (_id it) (state c') = Some it
    /\ has (other d) (_id it) (state c') = false.
Proof. exact item_moved_membership. Qed.

(** Moving an item does not touch the other items. *)
Lemma item_moved_frame (d t : StateType) (it : StoreItem) (c : ClientState) (k : string) :
  k <> _id it ->
  get t k (state (TS.on_item_moved (mkEvent {| to := type_name d; item := it |}) c))
  = get t k (state c).
Proof.
  intros Hk. unfold TS.on_item_moved, get. cbn [data to item].
  destruct d; cbn [type_name String.eqb Ascii.eqb Bool.eqb]; cbn -[add remove has].
  - destruct (has history (_id it) (state c)); destruct t; cbn;
      rewrite ?lookup_insert_ne, ?lookup_delete_ne by congruence; reflexivity.
  - destruct (has queue (_id it) (state c)); destruct t; cbn;
      rewrite ?lookup_insert_ne, ?lookup_delete_ne by congruence; reflexivity.
Qed.

(** Hence the handler keeps the two collections apart when they were. *)
Lemma item_moved_exclusive (d : StateType) (it : StoreItem) (c : ClientState) :
  exclusive (state c) ->
  exclusive (state (TS.on_item_moved (mkEvent {| to := type_name d; item := it |}) c)).
Proof.
  intros Hex k [Hq Hh].
  destruct (decide (k = _id it)) as [->|Hk].
  - destruct (item_moved_membership d it c) as (H1 & _ & H2).
    destruct d; cbn [other] in H2; congruence.
  - apply (Hex k). rewrite !has_get in *.
    rewrite !item_moved_frame in * by exact Hk. auto.
Qed.

(** C3. For every connection snapshot, the handler of the snapshot sets the
    client configuration to the snapshot's application configuration,
    scheduled tasks, folders, presets and pause flag (as [Boolean] reads
    it), and makes the snapshot's active queue and history the client's
    queue and history (empty when the snapshot has none). This holds for
    [connected] in the TypeScript store, which sets the download fields
    too, and for [initial_data] in the JavaScript store. *)
Theorem connected_installs_snapshot :
  forall (snap : Snapshot) (c : ClientState),
    let c' := TS.on_connected (mkEvent snap) c in
    let l' := JS.on_initial_data snap c in
    (config c' = {| app := snap_config snap;
                    tasks := snap_tasks snap;
                    folders := snap_folders snap;
                    presets := snap_presets snap;
                    dl_fields := snap_dl_fields snap;
                    paused := truthy (snap_paused snap) |}
     /\ coll queue (state c') = default ∅ (snap_queue snap)
     /\ coll history (state c') = default ∅ (snap_done snap))
    /\ (config l' = {| app := snap_config snap;
                       tasks := snap_tasks snap;
                       folders := snap_folders snap;
                       presets := snap_presets snap;
                       dl_fields := dl_fields (config c);
                       paused := truthy (snap_paused snap) |}
        /\ coll queue (state l') = default ∅ (snap_queue snap)
        /\ coll history (state l') = default ∅ (snap_done snap)).
Proof. intros snap c. repeat split. Qed.

(** A snapshot that carries every part, with a boolean pause flag, is
    installed as it is. *)
Corollary connected_full_snapshot cfg tsk fld pre dlf (p : bool) q h c :
  TS.on_connected
    (mkEvent {| snap_config := cfg; snap_tasks := tsk; snap_folders := fld;
                snap_presets := pre; snap_dl_fields := dlf; snap_paused := JBool p;
                snap_queue := Some q; snap_done := Some h |}) c
  = {| config := {| app := cfg; tasks := tsk; folders := fld; presets := pre;
                    dl_fields := dlf; paused := p |};
       state := {| st_queue := q; st_history := h |};
       toasts := toasts c |}.
Proof. reflexivity. Qed.

(** C4. For every [item_completed] event and every client state, after the
    handler the Job is not in the active queue and is in the history, bound
    to the event's item whether it was there before or not. The same holds
    for [completed] in the JavaScript store. *)
Theorem item_completed_queue_to_history :
  forall (it : StoreItem) (c : ClientState),
    let c' := TS.on_item_completed (mkEvent it) c in
    let l' := JS.on_completed it c in
    (has queue (_id it) (state c') = false
     /\ has history (_id it) (state c') = true
     /\ get history (_id it) (state c') = Some it)
    /\ (has queue (_id it) (state l') = false
        /\ has history (_id it) (state l') = true
        /\ get history (_id it) (state l') = Some it).
Proof.
  intros it c. unfold TS.on_item_completed, JS.on_completed. cbn [data].
  destruct (has queue (_id it) (state c)) eqn:Hq; cbn -[add update remove has get].
  - rewrite (has_remove_ne history queue) by discriminate.
    destruct (has history (_id it) (state c)); cbn -[add update remove has get];
      unfold update; fold (add history (_id it) it (remove queue (_id it) (state c)));
      rewrite has_add, get_add, has_add_ne, has_remove by discriminate; auto.
  - destruct (has history (_id it) (state c)); cbn -[add update remove has get];
      unfold update; fold (add history (_id it) it (state c));
      rewrite has_add, get_add, has_add_ne, Hq by discriminate; auto.
Qed.

(** The handler of [item_cancelled] never writes to the history. *)
Lemma item_cancelled_history (it : StoreItem) (c : ClientState) :
  coll history (state (TS.on_item_cancelled (mkEvent it) c)) = coll history (state c)
  /\ coll history (state (JS.on_cancelled it c)) = coll history (state c).
Proof.
  unfold TS.on_item_cancelled, JS.on_cancelled. cbn [data].
  destruct (has queue (_id it) (state c)) eqn:Hq; cbn -[has]; [|auto].
  rewrite Hq. cbn. auto.
Qed.

(** C5, as amended. For every Job that is in the active queue and not in
    the history when its [item_cancelled] event is processed, after the
    handler the Job is in neither collection. The same holds for
    [cancelled] in the JavaScript store. *)
Theorem item_cancelled_absent_from_both :
  forall (it : StoreItem) (c : ClientState),
    has queue (_id it) (state c) = true ->
    has history (_id it) (state c) = false ->
    let c' := TS.on_item_cancelled (mkEvent it) c in
    let l' := JS.on_cancelled it c in
    (has queue (_id it) (state c') = false /\ has history (_id it) (state c') = false)
    /\ (has queue (_id it) (state l') = false /\ has history (_id it) (state l') = false).
Proof.
  intros it c Hq Hh. unfold TS.on_item_cancelled, JS.on_cancelled. cbn [data].
  rewrite Hq. cbn -[remove has]. rewrite Hq. cbn -[remove has].
  rewrite has_remove, has_remove_ne, Hh by discriminate. auto.
Qed.

Lemma item_cancelled_absent_from_both_witness :
  let c := TS.on_item_added (mkEvent job_a) initial in
  (has queue (_id job_a) (state c) = true /\ has history (_id job_a) (state c) = false)
  /\ (has queue (_id job_a) (state (TS.on_item_cancelled (mkEvent job_a) c)) = false
      /\ has history (_id job_a) (state (TS.on_item_cancelled (mkEvent job_a) c)) = false)
  /\ (has queue (_id job_a) (state (JS.on_cancelled job_a c)) = false
      /\ has history (_id job_a) (state (JS.on_cancelled job_a c)) = false).
Proof.
  split; [split; reflexivity|].
  apply (item_cancelled_absent_from_both job_a (TS.on_item_added (mkEvent job_a) initial));
    reflexivity.
Defined.

(** C5, as stated, fails on a client that holds the Job in both
    collections: the handler takes it out of the queue and leaves it in the
    history. *)
Lemma item_cancelled_stays_in_history :
  has queue (_id job_a) (state (in_both job_a)) = true
  /\ has history (_id job_a)
       (state (TS.on_item_cancelled (mkEvent job_a) (in_both job_a))) = true
  /\ has history (_id job_a) (state (JS.on_cancelled job_a (in_both job_a))) = true.
Proof. repeat split. Qed.

(** That client is what the store holds after a completed Job is announced
    again as added. *)
Lemma in_both_reachable :
  state (TS.receive_all initial [TS.item_completed (mkEvent job_a); TS.item_added (mkEvent job_a)])
  = state (in_both job_a).
Proof. reflexivity. Qed.

(** C6. For every [item_deleted] event and every client state, the handler
    takes the Job out of the history, where it is the only entry to go,
    and leaves the active queue as it was, whether the Job was in the
    history or not. The same holds for [cleared] in the JavaScript
    store. *)
Theorem item_deleted_only_history :
  forall (it : StoreItem) (c : ClientState),
    let c' := TS.on_item_deleted (mkEvent it) c in
    let l' := JS.on_cleared it c in
    (has history (_id it) (state c') = false
     /\ coll history (state c') = delete (_id it) (coll history (state c))
     /\ coll queue (state c') = coll queue (state c))
    /\ (has history (_id it) (state l') = false
        /\ coll history (state l') = delete (_id it) (coll history (state c))
        /\ coll queue (state l') = coll queue (state c)).
Proof.
  intros it c. unfold TS.on_item_deleted, JS.on_cleared. cbn [data].
  destruct (has history (_id it) (state c)) eqn:Hh; cbn -[remove has].
  - rewrite has_remove. auto.
  - rewrite Hh. apply has_false in Hh. cbn in Hh. rewrite delete_id by exact Hh. auto.
Qed.

(** The JavaScript store raises the notification with the payload's
    [message] property, whatever it is. *)
Lemma legacy_log_one_notification (k : Severity) (json : jsval) (c : ClientState) :
  JS.on_log k json c
  = {| config := config c; state := state c;
       toasts := toasts c ++ [{| severity := k; message := prop_opt json "message";
                                 options := JUndefined |}] |}.
Proof. destruct k; reflexivity. Qed.

(** C7, as amended. For every log event of kind [k], info, success, warning
    or error, whose payload carries a non-empty message [m], the handler
    raises exactly one notification, of severity [k] and with message [m],
    and changes neither the queue nor the history (nor the
    configuration). The same holds for the four log handlers of the
    JavaScript store. *)
Theorem log_raises_one_notification :
  forall (k : Severity) (fields : list (string * jsval)) (m : string) (c : ClientState),
    field "message" fields = JStr m ->
    m <> "" ->
    TS.on_log (TS.log_event k) (JObj fields) c
    = Some {| config := config c; state := state c;
              toasts := toasts c ++ [{| severity := k; message := JStr m;
                                        options := TS.log_options (JObj fields) |}] |}
    /\ JS.on_log k (JObj fields) c
       = {| config := config c; state := state c;
            toasts := toasts c ++ [{| severity := k; message := JStr m;
                                      options := JUndefined |}] |}.
Proof.
  intros k fields m c Hm Hne. split.
  - unfold TS.on_log, TS.log_options. cbn [prop prop_opt mbind option_bind].
    rewrite Hm.
    assert (Hor : forall v, js_or (JStr m) v = JStr m).
    { intros v. unfold js_or. apply truthy_str in Hne. rewrite Hne. reflexivity. }
    rewrite Hor. destruct k; reflexivity.
  - rewrite legacy_log_one_notification. cbn [prop_opt]. rewrite Hm. reflexivity.
Qed.

Lemma log_raises_one_notification_witness :
  TS.on_log "log_error" (JObj [("message", JStr "Download failed.")]) initial
  = Some {| config := config initial; state := state initial;
            toasts := [{| severity := error; message := JStr "Download failed.";
                          options := JObj [] |}] |}
  /\ JS.on_log error (JObj [("message", JStr "Download failed.")]) initial
     = {| config := config initial; state := state initial;
          toasts := [{| severity := error; message := JStr "Download failed.";
                        options := JUndefined |}] |}.
Proof.
  apply (log_raises_one_notification error [("message", JStr "Download failed.")]
           "Download failed." initial); [reflexivity | discriminate].
Defined.

(** C7, as stated, fails on an empty message: the TypeScript store falls
    back on [json.data.message], and with none there the notification it
    raises has [undefined] for a message, not the empty string. *)
Lemma log_empty_message_is_dropped :
  field "message" [("message", JStr "")] = JStr ""
  /\ TS.on_log (TS.log_event info) (JObj [("message", JStr "")]) initial
     = Some {| config := config initial; state := state initial;
               toasts := [{| severity := info; message := JUndefined;
                             options := JObj [] |}] |}
  /\ JUndefined <> JStr "".
Proof. repeat split. discriminate. Qed.

(** With a message under [data], that message takes the place of an empty
    one. *)
Example log_empty_message_falls_back :
  TS.on_log "log_info"
    (JObj [("message", JStr ""); ("data", JObj [("message", JStr "from data")])]) initial
  = Some (toast info (JStr "from data") (JObj [("message", JStr "from data")]) initial).
Proof. reflexivity. Qed.

(** A [null] payload makes the handler throw before it notifies. *)
Example log_null_payload_throws c : TS.on_log "log_info" JNull c = None.
Proof. reflexivity. Qed.

(** C9, as amended. For every boolean pause value [p], the [paused] handler
    of the JavaScript store on the payload [{paused: p}] and the handler of
    the TypeScript store on the payload [{data: {paused: p}}], called for
    the event whose name agrees with [p] (['paused'] when [p] is true,
    ['resumed'] when it is false), leave the client in the same state: the
    pause flag of the configuration is [p], and one notification is
    raised, a success when [p] is false and a warning when [p] is true. *)
Theorem paused_handlers_agree :
  forall (p : bool) (c : ClientState),
    let l' := JS.on_paused {| flag := JBool p |} c in
    let c' := TS.on_paused_resumed (TS.pause_event_name p) (mkEvent {| flag := JBool p |}) c in
    l' = c'
    /\ paused (config c') = p
    /\ exists n, toasts c' = (toasts c ++ [n])%list
                 /\ severity n = (if p then warning else success).
Proof.
  intros [] c; cbn; (split; [reflexivity|split; [reflexivity|eexists; split; reflexivity]]).
Qed.

(** C9, as stated, fails when the name of the event and the flag disagree:
    on ['paused'] with the flag false, the TypeScript store warns that the
    queue is paused, where the JavaScript store reports it resumed. *)
Lemma paused_event_with_flag_false :
  map severity (toasts (TS.on_paused_resumed "paused" (mkEvent {| flag := JBool false |}) initial))
  = [warning]
  /\ map severity (toasts (JS.on_paused {| flag := JBool false |} initial)) = [success]
  /\ TS.on_paused_resumed "paused" (mkEvent {| flag := JBool false |}) initial
     <> JS.on_paused {| flag := JBool false |} initial.
Proof. repeat split. discriminate. Qed.

(** And likewise on ['resumed'] with the flag true. *)
Example resumed_event_with_flag_true :
  let c' := TS.on_paused_resumed "resumed" (mkEvent {| flag := JBool true |}) initial in
  paused (config c') = true /\ map severity (toasts c') = [success].
Proof. split; reflexivity. Qed.

(** A Job through the store: queued, updated, completed; and a Job queued
    and cancelled, which is then in neither collection. *)
Example job_completed_scenario :
  let c := TS.receive_all initial
             [TS.item_added (mkEvent job_a); TS.item_updated (mkEvent job_a);
              TS.item_completed (mkEvent job_a)] in
  has queue "a" (state c) = false /\ get history "a" (state c) = Some job_a.
Proof. split; reflexivity. Qed.

Example job_cancelled_scenario :
  let c := TS.receive_all initial
             [TS.item_added (mkEvent job_a); TS.item_cancelled (mkEvent job_a)] in
  state c = state initial
  /\ map severity (toasts c) = [success; warning]
  /\ map message (toasts c) = [JStr "Item queued: A"; JStr "Download cancelled: A"].
Proof. repeat split. Qed.

End SocketFacts.

(* --------------------------------------------------------------------- *)
(** ** Trimming and [uri] *)
(* --------------------------------------------------------------------- *)

Module StringFacts.
Import Utils.

Lemma append_cons (c : ascii) (s t : string) : String c s ++ t = String c (s ++ t).
Proof. reflexivity. Qed.

Lemma append_assoc (s t u : string) : (s ++ t) ++ u = s ++ t ++ u.
Proof.
  induction s as [|c s IH]; [reflexivity|].
  rewrite !append_cons, IH. reflexivity.
Qed.

Lemma append_nil_r (s : string) : s ++ "" = s.
Proof.
  induction s as [|c s IH]; [reflexivity|].
  rewrite append_cons, IH. reflexivity.
Qed.

Lemma length_append (s t : string) :
  String.length (s ++ t) = (String.length s + String.length t)%nat.
Proof.
  induction s as [|c s IH]; [reflexivity|].
  rewrite append_cons. simpl. rewrite IH. reflexivity.
Qed.

Lemma all_chars_app p s t : all_chars p (s ++ t) = all_chars p s && all_chars p t.
Proof.
  induction s as [|c s IH]; [reflexivity|].
  rewrite append_cons. simpl. rewrite IH, andb_assoc. reflexivity.
Qed.

Lemma all_chars_impl (p q : ascii -> bool) s :
  (forall c, p c = true -> q c = true) -> all_chars p s = true -> all_chars q s = true.
Proof.
  intros Hpq. induction s as [|c s IH]; simpl; [reflexivity|].
  intros [Hc Hs]%andb_true_iff. rewrite (Hpq c Hc), (IH Hs). reflexivity.
Qed.

End StringFacts.

Module UriFacts.
Import Utils StringFacts.

Lemma sTrim_trim_start s c : sTrim s c = trim_start (in_class c) s.
Proof. destruct s; reflexivity. Qed.

Lemma eTrim_trim_end s c : eTrim s c = trim_end (in_class c) s.
Proof. destruct s; reflexivity. Qed.

Lemma prefix_nil s : String.prefix "" s = true.
Proof. destruct s; reflexivity. Qed.

Lemma prefix_cons c a s t :
  String.prefix (String c s) (String a t) = if ascii_dec c a then String.prefix s t else false.
Proof. reflexivity. Qed.

Lemma prefix_one c s : String.prefix (String c EmptyString) s = true <-> exists r, s = String c r.
Proof.
  destruct s as [|a r]; simpl.
  - split; [discriminate | intros [r' H]; discriminate].
  - destruct (ascii_dec c a) as [->|Hne].
    + split; [eauto | intros _; apply prefix_nil].
    + split; [discriminate | intros [r' H]; congruence].
Qed.

Lemma prefix_app b s t : String.prefix b s = true -> String.prefix b (s ++ t) = true.
Proof.
  revert s. induction b as [|c b IH]; intros s H; [apply prefix_nil|].
  destruct s as [|a s]; simpl in *; [discriminate|].
  destruct (ascii_dec c a); [auto | discriminate].
Qed.

(** What [trim_start] returns does not begin with a character of the
    class, so trimming it again changes nothing. *)
Lemma trim_start_head p s c r : trim_start p s = String c r -> p c = false.
Proof.
  induction s as [|a s IH]; simpl; [discriminate|].
  destruct (p a) eqn:Ha; [exact IH | congruence].
Qed.

Lemma trim_start_idem p s : trim_start p (trim_start p s) = trim_start p s.
Proof.
  destruct (trim_start p s) as [|c r] eqn:H; [reflexivity|].
  simpl. rewrite (trim_start_head _ _ _ _ H). reflexivity.
Qed.

(** The third branch of [uri] gives the same text when it is reached
    again from its own result, on a stable base. *)
Lemma uri_join_stable b x :
  stable_base b = true ->
  trim_start (in_class "/") x = x ->
  uri b (eTrim b "/" ++ "/" ++ x) = eTrim b "/" ++ "/" ++ x.
Proof.
  intros Hb Hx. unfold uri.
  set (e := eTrim b "/") in *. set (r := e ++ "/" ++ x).
  destruct (String.eqb r "" || String.eqb "/" b || negb (String.prefix "/" r)) eqn:Hg;
    [reflexivity|].
  destruct (String.prefix b r) eqn:Hp; [reflexivity|].
  apply orb_false_iff in Hg as [Hg Hslash]. apply negb_false_iff in Hslash.
  unfold stable_base in Hb. fold e in Hb. clearbody e.
  apply orb_true_iff in Hb as [Hb|Hb].
  - apply negb_true_iff in Hb. subst r.
    destruct e as [|c e'].
    + change ("" ++ "/" ++ x) with (String "/" x).
      rewrite sTrim_trim_start.
      change (trim_start (in_class "/") (String "/" x)) with (trim_start (in_class "/") x).
      rewrite Hx. reflexivity.
    + change ((String c e') ++ "/" ++ x) with (String c (e' ++ "/" ++ x)) in Hslash.
      apply prefix_one in Hslash as [r Hr]. injection Hr as -> _.
      assert (String.prefix "/" (String "/" e') = true) by (apply prefix_one; eauto).
      congruence.
  - subst r. rewrite <- append_assoc, (prefix_app b (e ++ "/") x) in Hp.
    + discriminate.
    + exact Hb.
Qed.

Lemma uri_fixes_its_results b u :
  stable_base b = true -> uri b (uri b u) = uri b u.
Proof.
  intros Hb. unfold uri at 2 3.
  destruct (String.eqb u "" || String.eqb "/" b || negb (String.prefix "/" u)) eqn:Hg.
  - unfold uri. rewrite Hg. reflexivity.
  - destruct (String.prefix b u) eqn:Hp.
    + unfold uri. rewrite Hg, Hp. reflexivity.
    + apply uri_join_stable; [exact Hb|].
      rewrite sTrim_trim_start. apply trim_start_idem.
Qed.

(** C10, as amended. For every string [u] and every base URL that does not
    begin with ["/"], or is made of ["/"] only, or has at most one ["/"] at
    its end, [uri(uri(u))] is [uri(u)]. *)
Theorem uri_idempotent :
  forall (baseURL u : string), stable_base baseURL = true ->
    uri baseURL (uri baseURL u) = uri baseURL u.
Proof. exact uri_fixes_its_results. Qed.

Lemma uri_idempotent_witness :
  stable_base "/ytptube/" = true
  /\ uri "/ytptube/" (uri "/ytptube/" "/api/history") = uri "/ytptube/" "/api/history".
Proof.
  split; [reflexivity|].
  apply (uri_idempotent "/ytptube/" "/api/history"). reflexivity.
Defined.

(** C10, as stated, fails on a base URL that ends in two ["/"]: the prefixed
    path does not begin with the base, and is prefixed again. *)
Lemma uri_prefixes_twice :
  uri "/app//" "/x" = "/app/x"
  /\ uri "/app//" (uri "/app//" "/x") = "/app/app/x"
  /\ uri "/app//" (uri "/app//" "/x") <> uri "/app//" "/x".
Proof. repeat split. discriminate. Qed.

(** On every other base URL, [uri] is not idempotent: the path ["/"] is
    prefixed twice. *)
Lemma trim_start_nil p s : trim_start p s = "" -> all_chars p s = true.
Proof.
  induction s as [|c s IH]; simpl; [reflexivity|].
  destruct (p c); [exact IH | discriminate].
Qed.

Lemma trim_end_all p s : all_chars p (trim_end p s) = true -> trim_end p s = "".
Proof.
  induction s as [|c s IH]; simpl; [reflexivity|].
  destruct (trim_end p s) as [|c' r'] eqn:Hr.
  - destruct (p c) eqn:Hc; [reflexivity|]. simpl. rewrite Hc. discriminate.
  - simpl. intros [_ H]%andb_true_iff. discriminate (IH H).
Qed.

Lemma uri_unstable b : stable_base b = false -> uri b (uri b "/") <> uri b "/".
Proof.
  unfold stable_base. rewrite eTrim_trim_end.
  destruct (trim_end (in_class "/") b) as [|c e'] eqn:He; [discriminate|].
  intros [Hs Hp]%orb_false_iff. apply negb_false_iff in Hs.
  apply prefix_one in Hs as [r Hr]. injection Hr as -> ->.
  assert (Hb : String.eqb "/" b = false).
  { apply String.eqb_neq. intros <-. discriminate He. }
  assert (H1 : uri b "/" = String "/" r ++ "/").
  { unfold uri. rewrite Hb.
    change (String.eqb "/" "") with false. change (String.prefix "/" "/") with true.
    cbn [orb negb].
    destruct (String.prefix b "/") eqn:Hpb.
    - exfalso. destruct b as [|a [|a' b']]; [discriminate He| |].
      + apply prefix_one in Hpb as [r' Hr']. injection Hr' as <-.
        discriminate He.
      + rewrite prefix_cons in Hpb. destruct (ascii_dec a "/"); discriminate Hpb.
    - rewrite eTrim_trim_end, He. reflexivity. }
  rewrite H1. unfold uri. rewrite Hb, Hp, eTrim_trim_end, He.
  rewrite append_cons.
  replace (String.prefix "/" (String "/" (r ++ "/"))) with true
    by (symmetry; apply prefix_one; eauto).
  cbn [String.eqb orb negb]. rewrite <- append_cons.
  intros Heq. rewrite <- (append_nil_r (String "/" r ++ "/")) in Heq at 2.
  rewrite !append_assoc in Heq.
  apply (inj (String.append (String "/" r))) in Heq.
  change ("/" ++ ?x) with (String "/" x) in Heq. injection Heq as Heq.
  rewrite sTrim_trim_start in Heq. apply trim_start_nil in Heq.
  rewrite all_chars_app in Heq. apply andb_true_iff in Heq as [Heq _].
  rewrite <- He in Heq. apply trim_end_all in Heq. congruence.
Qed.

Corollary uri_stable_iff b :
  (forall u, uri b (uri b u) = uri b u) <-> stable_base b = true.
Proof.
  split; [|intros H u; apply uri_fixes_its_results, H].
  intros H. destruct (stable_base b) eqn:Hb; [reflexivity|].
  destruct (uri_unstable b Hb (H "/")).
Qed.

(** The usual base URLs are stable. *)
Example stable_bases :
  map stable_base ["/"; "/ytptube/"; "/ytptube"; ""; "//"; "app//"; "/app//"]
  = [true; true; true; true; true; true; false].
Proof. reflexivity. Qed.

(** [iTrim] on both ends, and the class [[^]] that matches everything. *)
Example iTrim_examples :
  iTrim "//a/b//" "/" both = "a/b"
  /\ eTrim "/app//" "/" = "/app"
  /\ sTrim "//x/" "/" = "x/"
  /\ iTrim "abc" "^" both = "".
Proof. repeat split. Qed.

End UriFacts.

(* --------------------------------------------------------------------- *)
(** ** [encode] and [decode] *)
(* --------------------------------------------------------------------- *)

Module Base64Facts.
Import Utils Base64 StringFacts.

Local Open Scope N_scope.

(** Linear arithmetic with division and remainder by constants. *)
Ltac div_lia := zify; Z.to_euclidean_division_equations; lia.

(** Induction three characters at a time. *)
Lemma string_ind3 (P : string -> Prop) :
  P "" ->
  (forall a, P (String a "")) ->
  (forall a b, P (String a (String b ""))) ->
  (forall a b c r, P r -> P (String a (String b (String c r)))) ->
  forall s, P s.
Proof.
  intros H0 H1 H2 H3 s.
  assert (H : P s /\ (forall a, P (String a s)) /\ (forall a b, P (String a (String b s)))).
  { induction s as [|c s (IH0 & IH1 & IH2)]; [auto|].
    split; [apply IH1|]. split; [intros a; apply IH2|].
    intros a b. apply H3, IH0. }
  apply H.
Qed.

Lemma sextets_3 a b c r :
  sextets (String a (String b (String c r)))
  = N_of_ascii a / 4
      :: (N_of_ascii a mod 4) * 16 + N_of_ascii b / 16
      :: (N_of_ascii b mod 16) * 4 + N_of_ascii c / 64
      :: N_of_ascii c mod 64
      :: sextets r.
Proof. reflexivity. Qed.

Lemma octets_4 a b c d r :
  octets (a :: b :: c :: d :: r)
  = String (ascii_of_N (a * 4 + b / 16))
      (String (ascii_of_N ((b mod 16) * 16 + c / 4))
         (String (ascii_of_N ((c mod 4) * 64 + d)) (octets r))).
Proof. reflexivity. Qed.

Lemma ascii_of_code a n : n = N_of_ascii a -> ascii_of_N n = a.
Proof. intros ->. apply ascii_N_embedding. Qed.

(** Every group has six bits. *)
Lemma sextets_bounded s : Forall (fun n => n < 64) (sextets s).
Proof.
  induction s as [|a|a b|a b c r IH] using string_ind3.
  - constructor.
  - pose proof (N_ascii_bounded a). cbn [sextets].
    repeat constructor; div_lia.
  - pose proof (N_ascii_bounded a). pose proof (N_ascii_bounded b). cbn [sextets].
    repeat constructor; div_lia.
  - pose proof (N_ascii_bounded a). pose proof (N_ascii_bounded b).
    pose proof (N_ascii_bounded c). rewrite sextets_3.
    repeat (constructor; [div_lia|]). exact IH.
Qed.

(** Regrouping the bits of the groups gives the bytes back. *)
Lemma octets_sextets s : octets (sextets s) = s.
Proof.
  induction s as [|a|a b|a b c r IH] using string_ind3.
  - reflexivity.
  - pose proof (N_ascii_bounded a). cbn [sextets octets].
    f_equal. apply ascii_of_code. div_lia.
  - pose proof (N_ascii_bounded a). pose proof (N_ascii_bounded b). cbn [sextets octets].
    repeat f_equal; apply ascii_of_code; div_lia.
  - pose proof (N_ascii_bounded a). pose proof (N_ascii_bounded b).
    pose proof (N_ascii_bounded c). rewrite sextets_3, octets_4, IH.
    repeat f_equal; apply ascii_of_code; div_lia.
Qed.

Lemma char_ok_all n : n < 64 -> char_ok n = true.
Proof.
  intros Hn. rewrite <- (N2Nat.id n).
  assert (Hk : (N.to_nat n < 64)%nat) by lia.
  revert Hk. generalize (N.to_nat n). intros k Hk.
  do 64 (destruct k as [|k]; [reflexivity|]). lia.
Qed.

Lemma b64_index_char n : n < 64 -> b64_index (b64_char n) = Some n.
Proof.
  intros Hn. pose proof (char_ok_all n Hn) as H. unfold char_ok in H.
  apply andb_true_iff in H as [H _].
  destruct (b64_index (b64_char n)) as [m|]; [|discriminate].
  apply N.eqb_eq in H. congruence.
Qed.

Lemma b64_char_plain n : n < 64 -> plain (b64_char n) = true.
Proof.
  intros Hn. pose proof (char_ok_all n Hn) as H. unfold char_ok in H.
  apply andb_true_iff in H as [_ H]. exact H.
Qed.

(** *** The text [btoa] returns *)

Lemma plain_not_eq_sign c : plain c = true -> not_eq_sign c = true.
Proof.
  unfold plain, not_eq_sign. intros H.
  repeat (apply andb_true_iff in H as [H ?]). assumption.
Qed.

Lemma chars_of_groups l :
  Forall (fun n => n < 64) l ->
  indices (string_of_list_ascii (map b64_char l)) = Some l
  /\ all_chars plain (string_of_list_ascii (map b64_char l)) = true.
Proof.
  induction 1 as [|n l Hn _ [IHi IHp]]; [split; reflexivity|].
  cbn [map string_of_list_ascii indices all_chars].
  rewrite (b64_index_char n Hn), IHi, (b64_char_plain n Hn), IHp. split; reflexivity.
Qed.

Lemma indices_body s : indices (body s) = Some (sextets s).
Proof. apply chars_of_groups, sextets_bounded. Qed.

Lemma body_plain s : all_chars plain (body s) = true.
Proof. apply chars_of_groups, sextets_bounded. Qed.

Lemma length_string_of_list l : String.length (string_of_list_ascii l) = List.length l.
Proof. induction l as [|c l IH]; simpl; [reflexivity | rewrite IH; reflexivity]. Qed.

Lemma length_body s : String.length (body s) = List.length (sextets s).
Proof. unfold body. rewrite length_string_of_list. apply length_map. Qed.

Lemma mod3_step (n : nat) : (S (S (S n)) mod 3 = n mod 3)%nat.
Proof.
  change (S (S (S n))) with (3 + n)%nat. rewrite Nat.add_comm.
  apply (Nat.Div0.mod_add n 1 3).
Qed.

Lemma mod4_step (n : nat) : (S (S (S (S n))) mod 4 = n mod 4)%nat.
Proof.
  change (S (S (S (S n)))) with (4 + n)%nat. rewrite Nat.add_comm.
  apply (Nat.Div0.mod_add n 1 4).
Qed.

(** The number of characters before padding, modulo four, follows the
    number of bytes modulo three; so the padding is what is missing to a
    multiple of four. *)
Lemma padding_completes s :
  padding (String.length s)
  = repeat_char "=" ((4 - String.length (body s) mod 4) mod 4).
Proof.
  rewrite length_body. unfold padding.
  induction s as [|a|a b|a b c r IH] using string_ind3; try reflexivity.
  rewrite sextets_3. cbn [String.length List.length].
  rewrite mod3_step, mod4_step. exact IH.
Qed.

Lemma body_length_not_1 s : (String.length (body s) mod 4)%nat <> 1%nat.
Proof.
  rewrite length_body.
  induction s as [|a|a b|a b c r IH] using string_ind3; try discriminate.
  rewrite sextets_3. cbn [List.length]. rewrite mod4_step. exact IH.
Qed.

Lemma length_repeat_char c n : String.length (repeat_char c n) = n.
Proof. induction n as [|n IH]; simpl; [reflexivity | rewrite IH; reflexivity]. Qed.

Lemma btoa_length s : (String.length (btoa s) mod 4)%nat = 0%nat.
Proof.
  unfold btoa. fold (body s). rewrite padding_completes, length_append, length_repeat_char.
  pose proof (Nat.mod_upper_bound (String.length (body s)) 4 ltac:(lia)) as Hlt.
  rewrite (Nat.div_mod_eq (String.length (body s)) 4) at 1.
  set (q := (String.length (body s) / 4)%nat) in *.
  set (m := (String.length (body s) mod 4)%nat) in *.
  clearbody q m.
  destruct m as [|[|[|[|m]]]]; [| | | |lia].
  - replace (4 * q + 0 + (4 - 0) mod 4)%nat with (0 + q * 4)%nat by (cbn; lia).
    apply Nat.Div0.mod_add.
  - replace (4 * q + 1 + (4 - 1) mod 4)%nat with (0 + (q + 1) * 4)%nat by (cbn; lia).
    apply Nat.Div0.mod_add.
  - replace (4 * q + 2 + (4 - 2) mod 4)%nat with (0 + (q + 1) * 4)%nat by (cbn; lia).
    apply Nat.Div0.mod_add.
  - replace (4 * q + 3 + (4 - 3) mod 4)%nat with (0 + (q + 1) * 4)%nat by (cbn; lia).
    apply Nat.Div0.mod_add.
Qed.

(** *** [atob] undoes [btoa] *)

Lemma plain_not_whitespace c : plain c = true -> is_ascii_whitespace c = false.
Proof.
  unfold plain. intros H. repeat (apply andb_true_iff in H as [H _]).
  apply negb_true_iff in H. exact H.
Qed.

Lemma remove_whitespace_app s t :
  remove_whitespace (s ++ t) = remove_whitespace s ++ remove_whitespace t.
Proof.
  induction s as [|c s IH]; [reflexivity|].
  rewrite append_cons. simpl. rewrite IH.
  destruct (is_ascii_whitespace c); reflexivity.
Qed.

Lemma remove_whitespace_plain s : all_chars plain s = true -> remove_whitespace s = s.
Proof.
  induction s as [|c s IH]; simpl; [reflexivity|].
  intros [Hc Hs]%andb_true_iff.
  rewrite (plain_not_whitespace c Hc), (IH Hs). reflexivity.
Qed.

Lemma remove_whitespace_padding n : remove_whitespace (padding n) = padding n.
Proof. unfold padding. destruct (n mod 3)%nat as [|[|[|k]]]; reflexivity. Qed.

Lemma remove_whitespace_btoa s : remove_whitespace (btoa s) = btoa s.
Proof.
  unfold btoa. fold (body s).
  rewrite remove_whitespace_app, remove_whitespace_padding,
    (remove_whitespace_plain _ (body_plain s)).
  reflexivity.
Qed.

Lemma drop_last_eq_snoc t : drop_last_eq (t ++ "=") = t.
Proof.
  induction t as [|c t IH]; [reflexivity|].
  rewrite append_cons. cbn [drop_last_eq]. rewrite IH.
  destruct t; reflexivity.
Qed.

Lemma drop_last_eq_plain t : all_chars not_eq_sign t = true -> drop_last_eq t = t.
Proof.
  induction t as [|c t IH]; [reflexivity|].
  cbn [all_chars drop_last_eq]. intros [Hc Ht]%andb_true_iff.
  rewrite (IH Ht). destruct t; [|reflexivity].
  unfold not_eq_sign in Hc. apply negb_true_iff in Hc. rewrite Hc. reflexivity.
Qed.

Lemma body_not_eq_sign s : all_chars not_eq_sign (body s) = true.
Proof. apply (all_chars_impl plain); [apply plain_not_eq_sign | apply body_plain]. Qed.

Lemma strip_padding_btoa s : strip_padding (btoa s) = body s.
Proof.
  unfold strip_padding. rewrite btoa_length. cbn [Nat.eqb].
  unfold btoa. fold (body s).
  pose proof (drop_last_eq_plain (body s) (body_not_eq_sign s)) as Hd.
  unfold padding. destruct (String.length s mod 3)%nat as [|[|[|k]]].
  - rewrite append_nil_r, !Hd. reflexivity.
  - change "==" with ("=" ++ "="). rewrite <- append_assoc, !drop_last_eq_snoc. reflexivity.
  - rewrite drop_last_eq_snoc, Hd. reflexivity.
  - rewrite append_nil_r, !Hd. reflexivity.
Qed.

(** Every binary string comes back from its base64 text. *)
Lemma atob_btoa (binary : string) : atob (btoa binary) = Some binary.
Proof.
  unfold atob. rewrite remove_whitespace_btoa, strip_padding_btoa.
  destruct (Nat.eqb_spec (String.length (body binary) mod 4) 1) as [H|_].
  - destruct (body_length_not_1 binary H).
  - rewrite indices_body. cbn [option_map]. rewrite octets_sextets. reflexivity.
Qed.

(** *** The URL-safe text *)

Lemma replace_all_app a b s t :
  replace_all a b (s ++ t) = replace_all a b s ++ replace_all a b t.
Proof.
  induction s as [|c s IH]; [reflexivity|].
  rewrite append_cons. cbn [replace_all]. rewrite IH. reflexivity.
Qed.

Lemma length_replace_all a b s : String.length (replace_all a b s) = String.length s.
Proof. induction s as [|c s IH]; simpl; [reflexivity | rewrite IH; reflexivity]. Qed.

Lemma url_safe_padding k :
  replace_all "/" "_" (replace_all "+" "-" (repeat_char "=" k)) = repeat_char "=" k.
Proof. induction k as [|k IH]; [reflexivity|]. cbn. cbn in IH. rewrite IH. reflexivity. Qed.

(** On text without ["-"] and ["_"], the two replacements of [decode] undo
    the two of [encode]. *)
Lemma url_safe_inverse t :
  all_chars plain t = true ->
  replace_all "_" "/" (replace_all "-" "+" (replace_all "/" "_" (replace_all "+" "-" t))) = t.
Proof.
  induction t as [|c t IH]; [reflexivity|].
  cbn [all_chars replace_all]. intros [Hc Ht]%andb_true_iff.
  rewrite (IH Ht). f_equal.
  unfold plain in Hc.
  apply andb_true_iff in Hc as [Hc Hu]. apply andb_true_iff in Hc as [_ Hm].
  apply negb_true_iff in Hu, Hm.
  destruct (Ascii.eqb_spec c "+") as [->|Hplus]; [reflexivity|].
  destruct (Ascii.eqb_spec c "/") as [->|Hslash]; [reflexivity|].
  rewrite Hm, Hu. reflexivity.
Qed.

Lemma url_safe_not_eq_sign t :
  all_chars plain t = true ->
  all_chars not_eq_sign (replace_all "/" "_" (replace_all "+" "-" t)) = true.
Proof.
  induction t as [|c t IH]; [reflexivity|].
  cbn [all_chars replace_all]. intros [Hc Ht]%andb_true_iff.
  rewrite (IH Ht), andb_true_r.
  apply plain_not_eq_sign in Hc.
  destruct (Ascii.eqb_spec c "+") as [->|_]; [reflexivity|].
  destruct (Ascii.eqb_spec c "/") as [->|_]; [reflexivity|].
  exact Hc.
Qed.

Lemma trim_end_eq_signs k : trim_end (Ascii.eqb "=") (repeat_char "=" k) = "".
Proof. induction k as [|k IH]; [reflexivity|]. cbn [repeat_char trim_end]. rewrite IH. reflexivity. Qed.

Lemma trim_end_padding t k :
  all_chars not_eq_sign t = true ->
  trim_end (Ascii.eqb "=") (t ++ repeat_char "=" k) = t.
Proof.
  induction t as [|c t IH]; [intros _; apply trim_end_eq_signs|].
  cbn [all_chars]. intros [Hc Ht]%andb_true_iff.
  rewrite append_cons. cbn [trim_end]. rewrite (IH Ht).
  destruct t; [|reflexivity].
  unfold not_eq_sign in Hc. apply negb_true_iff in Hc.
  rewrite Ascii.eqb_sym, Hc. reflexivity.
Qed.

(** *** [decode] undoes [encode] *)

Section Codec.
Variable P : Platform.

(** What [encode] returns: the base64 characters of the UTF-8 bytes of
    the JSON text, with ["+"] and ["/"] replaced and no padding. *)
Lemma encode_unpadded (obj : jsobject P) :
  encode P obj
  = replace_all "/" "_"
      (replace_all "+" "-"
         (body (string_of_list_byte (utf8_encode P (JSON_stringify P obj))))).
Proof.
  unfold encode, btoa.
  set (binary := string_of_list_byte (utf8_encode P (JSON_stringify P obj))).
  fold (body binary).
  rewrite padding_completes, !replace_all_app, url_safe_padding.
  apply trim_end_padding, url_safe_not_eq_sign, body_plain.
Qed.

(** The base64 layer is transparent: [decode] after [encode] is
    [JSON.parse] after [JSON.stringify]. *)
Lemma decode_encode_is_parse_stringify (obj : jsobject P) :
  decode P (encode P obj) = JSON_parse P (JSON_stringify P obj).
Proof.
  rewrite encode_unpadded.
  set (binary := string_of_list_byte (utf8_encode P (JSON_stringify P obj))).
  unfold decode.
  rewrite (url_safe_inverse (body binary) (body_plain binary)).
  rewrite !length_replace_all.
  unfold padEnd. rewrite Nat.add_comm, Nat.add_sub.
  rewrite <- padding_completes.
  change (body binary ++ padding (String.length binary)) with (btoa binary).
  rewrite atob_btoa. subst binary.
  rewrite list_byte_of_string_of_list_byte, utf8_decode_encode. reflexivity.
Qed.

(** C8. For every JSON-serializable object [obj], [decode(encode(obj))]
    is [obj]: [decode] succeeds and returns the object encoded. *)
Theorem decode_encode :
  forall obj : jsobject P, json_serializable P obj -> decode P (encode P obj) = Some obj.
Proof.
  intros obj Hobj. rewrite decode_encode_is_parse_stringify. exact Hobj.
Qed.

End Codec.

Lemma decode_encode_witness :
  json_serializable sample_platform (paused_object true)
  /\ decode sample_platform (encode sample_platform (paused_object true))
     = Some (paused_object true).
Proof.
  split; [reflexivity|].
  apply (decode_encode sample_platform (paused_object true)). reflexivity.
Defined.

(** The text of the two sample objects. *)
Example encode_samples :
  encode sample_platform (paused_object true) = "eyJwYXVzZWQiOnRydWV9"
  /\ encode sample_platform empty_object = "e30"
  /\ btoa "{}" = "e30=".
Proof. repeat split. Qed.

(** ["+"], ["/"] and the padding in the standard text, and what [encode]
    makes of them. *)
Example url_safe_text :
  btoa ">>>???>" = "Pj4+Pz8/Pg=="
  /\ trim_end (Ascii.eqb "=") (replace_all "/" "_" (replace_all "+" "-" (btoa ">>>???>")))
     = "Pj4-Pz8_Pg"
  /\ atob "Pj4+Pz8/Pg==" = Some ">>>???>".
Proof. repeat split. Qed.

(** [atob] throws on a length of one more than a multiple of four, on a
    character outside the alphabet, and on padding that does not complete
    a group of four. *)
Example atob_failures :
  atob "T" = None /\ atob "TQ-_" = None /\ atob "TQ=" = None.
Proof. repeat split. Qed.

End Base64Facts.

(* --------------------------------------------------------------------- *)
(** ** More on trimming and [uri] *)
(* --------------------------------------------------------------------- *)

Module TrimFacts.
Import Utils Paths StringFacts UriFacts.

Lemma iTrim_start s c : iTrim s c at_start = trim_start (in_class c) s.
Proof. destruct s; reflexivity. Qed.

Lemma iTrim_end s c : iTrim s c at_end = trim_end (in_class c) s.
Proof. destruct s; reflexivity. Qed.

Lemma iTrim_both s c : iTrim s c both = trim_end (in_class c) (trim_start (in_class c) s).
Proof. destruct s; reflexivity. Qed.


Lemma trim_start_clean p s : head_in p (trim_start p s) = false.
Proof.
  destruct (trim_start p s) as [|c r] eqn:H; [reflexivity|].
  simpl. exact (trim_start_head _ _ _ _ H).
Qed.

Lemma trim_end_parts p s :
  exists post, s = trim_end p s ++ post /\ all_chars p post = true.
Proof.
  induction s as [|c s (post & Hs & Hpost)]; [exists ""; split; reflexivity|].
  simpl. destruct (trim_end p s) as [|c' r'] eqn:Hr.
  - change ("" ++ post) with post in Hs. subst s.
    destruct (p c) eqn:Hc.
    + exists (String c post). split; [reflexivity|]. simpl. rewrite Hc, Hpost. reflexivity.
    + exists post. split; [reflexivity | exact Hpost].
  - exists post. rewrite append_cons, <- Hs. auto.
Qed.

Lemma trim_end_clean p s : last_in p (trim_end p s) = false.
Proof.
  induction s as [|c s IH]; [reflexivity|].
  simpl. destruct (trim_end p s) as [|c' r'] eqn:Hr.
  - destruct (p c) eqn:Hc; [reflexivity|]. simpl. exact Hc.
  - exact IH.
Qed.

(** Trimming the end keeps a clean start clean. *)
Lemma trim_end_keeps_head p s : head_in p s = false -> head_in p (trim_end p s) = false.
Proof.
  destruct s as [|c s]; [reflexivity|].
  simpl. intros Hc. destruct (trim_end p s); [rewrite Hc|]; simpl; auto.
Qed.

Lemma trim_start_fixed p s : head_in p s = false -> trim_start p s = s.
Proof. destruct s as [|c s]; simpl; [reflexivity | intros ->; reflexivity]. Qed.

Lemma trim_end_fixed p s : last_in p s = false -> trim_end p s = s.
Proof.
  induction s as [|c s IH]; [reflexivity|].
  cbn [last_in trim_end]. destruct s as [|c' s'].
  - intros ->. reflexivity.
  - intros H. rewrite (IH H). reflexivity.
Qed.

Lemma trim_end_nil p s : trim_end p s = "" -> all_chars p s = true.
Proof.
  destruct (trim_end_parts p s) as (post & Hs & Hpost).
  intros H. rewrite H in Hs. rewrite Hs. exact Hpost.
Qed.

Lemma trim_start_all p s : all_chars p s = true -> trim_start p s = "".
Proof.
  induction s as [|c s IH]; simpl; [reflexivity|].
  intros [-> Hs]%andb_true_iff. exact (IH Hs).
Qed.

Lemma trim_commute p s : trim_start p (trim_end p s) = trim_end p (trim_start p s).
Proof.
  induction s as [|c s IH]; [reflexivity|].
  cbn [trim_start]. destruct (p c) eqn:Hc.
  - cbn [trim_end]. destruct (trim_end p s) as [|c' r'] eqn:Hr.
    + rewrite Hc. rewrite (trim_start_all p s (trim_end_nil p s Hr)). reflexivity.
    + cbn [trim_start]. rewrite Hc. exact IH.
  - apply trim_start_fixed, trim_end_keeps_head. simpl. exact Hc.
Qed.



(** X3. Trimming is idempotent, at either end and at both. *)
Theorem iTrim_idempotent :
  forall (str : string) (delim : ascii) (position : Position),
    iTrim (iTrim str delim position) delim position = iTrim str delim position.
Proof.
  intros str d [].
  - rewrite !iTrim_start. apply trim_start_idem.
  - rewrite !iTrim_end. apply trim_end_fixed, trim_end_clean.
  - rewrite !iTrim_both.
    rewrite (trim_start_fixed _ (trim_end _ _)) by apply trim_end_keeps_head, trim_start_clean.
    apply trim_end_fixed, trim_end_clean.
Qed.

(** X4. The two ends can be trimmed in either order, and both orders give
    what [iTrim] gives for ['both']. *)
Theorem sTrim_eTrim_commute :
  forall (str : string) (delim : ascii),
    sTrim (eTrim str delim) delim = eTrim (sTrim str delim) delim
    /\ eTrim (sTrim str delim) delim = iTrim str delim both.
Proof.
  intros str d. unfold sTrim, eTrim. rewrite !iTrim_start, !iTrim_end, iTrim_both.
  split; [apply trim_commute | reflexivity].
Qed.

(** The class [[^]] of the delimiter ["^"] matches everything. *)
Example iTrim_caret : iTrim "a^b" "^" both = "" /\ iTrim "^a^" "-" both = "^a^".
Proof. split; reflexivity. Qed.




End TrimFacts.

(* --------------------------------------------------------------------- *)
(** ** Paths *)
(* --------------------------------------------------------------------- *)

Module PathFacts.
Import Utils Base64 Paths StringFacts Base64Facts.

Lemma split_not_nil sep s : split sep s <> [].
Proof.
  destruct s as [|c s]; simpl; [discriminate|].
  destruct (Ascii.eqb c sep); [discriminate|].
  destruct (split sep s); discriminate.
Qed.

Lemma split_app sep s t :
  split sep (s ++ String sep t) = (split sep s ++ split sep t)%list.
Proof.
  induction s as [|c s IH].
  - change ("" ++ String sep t) with (String sep t). simpl.
    rewrite Ascii.eqb_refl. reflexivity.
  - rewrite append_cons. simpl. rewrite IH.
    destruct (Ascii.eqb c sep); [reflexivity|].
    pose proof (split_not_nil sep s). destruct (split sep s); [congruence | reflexivity].
Qed.

(** The segments are made of characters of the string, the separator
    apart. *)
Lemma split_segments (q : ascii -> bool) sep s :
  all_chars q s = true ->
  Forall (fun seg => all_chars q seg = true /\ all_chars (fun c => negb (Ascii.eqb c sep)) seg = true)
    (split sep s).
Proof.
  induction s as [|c s IH]; simpl; [repeat constructor|].
  intros [Hc Hs]%andb_true_iff. specialize (IH Hs).
  destruct (Ascii.eqb c sep) eqn:Hsep.
  - constructor; [split; reflexivity | exact IH].
  - inversion IH as [|h t [Hh1 Hh2] Ht Heq]; [repeat constructor; simpl; rewrite ?Hc, ?Hsep; reflexivity|].
    constructor; [|exact Ht]. simpl. rewrite Hc, Hsep, Hh1, Hh2. auto.
Qed.

Lemma split_whole sep s :
  all_chars (fun c => negb (Ascii.eqb c sep)) s = true -> split sep s = [s].
Proof.
  induction s as [|c s IH]; simpl; [reflexivity|].
  intros [Hc Hs]%andb_true_iff. apply negb_true_iff in Hc. rewrite Hc, (IH Hs). reflexivity.
Qed.

Lemma replace_all_gone a b s :
  Ascii.eqb b a = false -> all_chars (fun c => negb (Ascii.eqb c a)) (replace_all a b s) = true.
Proof.
  intros Hab. induction s as [|c s IH]; simpl; [reflexivity|].
  rewrite IH, andb_true_r. destruct (Ascii.eqb c a) eqn:Hc; [rewrite Hab | rewrite Hc]; reflexivity.
Qed.

Lemma replace_all_absent a b s :
  all_chars (fun c => negb (Ascii.eqb c a)) s = true -> replace_all a b s = s.
Proof.
  induction s as [|c s IH]; simpl; [reflexivity|].
  intros [Hc Hs]%andb_true_iff. apply negb_true_iff in Hc. rewrite Hc, (IH Hs). reflexivity.
Qed.

Lemma not_separator_parts s :
  all_chars not_separator s = true
  <-> all_chars (fun c => negb (Ascii.eqb c "/")) s = true
      /\ all_chars (fun c => negb (Ascii.eqb c "\")) s = true.
Proof.
  induction s as [|c s IH]; simpl; [tauto|].
  unfold not_separator at 1. rewrite !andb_true_iff, IH. tauto.
Qed.

Lemma pop_while_empty_choice (P : string -> Prop) segments base :
  P base -> Forall P segments -> P (pop_while_empty segments base).
Proof.
  revert base. induction segments as [|seg rest IH]; intros base Hb Hs; simpl; [exact Hb|].
  inversion Hs; subst. destruct (String.eqb base ""); auto.
Qed.

Lemma pop_while_empty_stops segments base :
  base <> "" -> pop_while_empty segments base = base.
Proof.
  intros H. destruct segments; simpl; [reflexivity|].
  apply String.eqb_neq in H. rewrite H. reflexivity.
Qed.

Lemma all_chars_substring p n s : all_chars p s = true -> all_chars p (substring 0 n s) = true.
Proof.
  revert n. induction s as [|c s IH]; intros [|n]; simpl; try reflexivity.
  intros [Hc Hs]%andb_true_iff. rewrite Hc, (IH n Hs). reflexivity.
Qed.

Lemma substring_prefix s t : substring 0 (String.length s) (s ++ t) = s.
Proof.
  induction s as [|c s IH]; [destruct t; reflexivity|].
  rewrite append_cons. simpl. rewrite IH. reflexivity.
Qed.

Lemma substring_suffix s t : substring (String.length s) (String.length t) (s ++ t) = t.
Proof.
  induction s as [|c s IH].
  - change ("" ++ t) with t. rewrite <- (append_nil_r t) at 2. apply substring_prefix.
  - rewrite append_cons. simpl. exact IH.
Qed.

Lemma last_segment_clean path : all_chars not_separator (last_segment path) = true.
Proof.
  unfold last_segment.
  pose proof (split_segments _ "/" _ (replace_all_gone "\" "/" path eq_refl)) as H.
  apply Forall_rev in H.
  destruct (rev (split "/" (replace_all "\" "/" path))) as [|seg rest]; [reflexivity|].
  inversion H as [|? ? [H1 H2] Hrest]; subst.
  apply (pop_while_empty_choice (fun s => all_chars not_separator s = true)).
  - apply not_separator_parts. auto.
  - eapply Forall_impl; [exact Hrest|]. intros s [? ?]. apply not_separator_parts. auto.
Qed.

(** X6. What [basename] returns has no ["/"] and no ["\"] in it, whatever
    the path and the extension. *)
Theorem basename_has_no_separator :
  forall (path ext : string), all_chars not_separator (basename path ext) = true.
Proof.
  intros path ext. unfold basename.
  destruct (String.eqb path ""); [reflexivity|].
  fold (last_segment path).
  destruct (negb (String.eqb ext "") && endsWith (last_segment path) ext
            && negb (String.eqb (last_segment path) ext)).
  - apply all_chars_substring, last_segment_clean.
  - apply last_segment_clean.
Qed.

Lemma last_segment_snoc (sep : ascii) d n :
  sep = "/"%char \/ sep = "\"%char ->
  n <> "" -> all_chars not_separator n = true ->
  last_segment (d ++ String sep n) = n.
Proof.
  intros Hsep Hn Hclean. apply not_separator_parts in Hclean as [Hslash Hback].
  unfold last_segment. rewrite replace_all_app.
  assert (Hr : replace_all "\" "/" (String sep n) = String "/" n).
  { simpl. rewrite (replace_all_absent _ _ _ Hback). destruct Hsep as [-> | ->]; reflexivity. }
  rewrite Hr, split_app, (split_whole "/" n Hslash), rev_app_distr. simpl.
  apply pop_while_empty_stops, Hn.
Qed.

Lemma last_segment_plain n :
  all_chars not_separator n = true -> last_segment n = n.
Proof.
  intros [Hslash Hback]%not_separator_parts. unfold last_segment.
  rewrite (replace_all_absent _ _ _ Hback), (split_whole "/" n Hslash). reflexivity.
Qed.

Lemma basename_no_ext path : path <> "" -> basename path "" = last_segment path.
Proof.
  intros H. unfold basename. apply String.eqb_neq in H. rewrite H. reflexivity.
Qed.

(** *** [lastIndexOf] *)

Lemma lastIndexOf_range c s : (-1 <= lastIndexOf c s < Z.of_nat (String.length s))%Z.
Proof.
  induction s as [|a s IH]; simpl String.length; cbn [lastIndexOf]; [lia|].
  destruct (Z.leb_spec 0 (lastIndexOf c s)); [lia|].
  destruct (Ascii.eqb a c); lia.
Qed.

Lemma lastIndexOf_absent c s :
  all_chars (fun a => negb (Ascii.eqb a c)) s = true -> lastIndexOf c s = (-1)%Z.
Proof.
  induction s as [|a s IH]; [reflexivity|].
  cbn [all_chars lastIndexOf]. intros [Ha Hs]%andb_true_iff.
  rewrite (IH Hs). apply negb_true_iff in Ha. rewrite Ha. reflexivity.
Qed.

Lemma lastIndexOf_app_absent c s t :
  lastIndexOf c t = (-1)%Z -> lastIndexOf c (s ++ t) = lastIndexOf c s.
Proof.
  intros Ht. induction s as [|a s IH]; [exact Ht|].
  rewrite append_cons. cbn [lastIndexOf]. rewrite IH. reflexivity.
Qed.

Lemma lastIndexOf_last c s t :
  lastIndexOf c t = (-1)%Z -> lastIndexOf c (s ++ String c t) = Z.of_nat (String.length s).
Proof.
  intros Ht. induction s as [|a s IH].
  - change ("" ++ String c t) with (String c t). cbn [lastIndexOf].
    rewrite Ht, Ascii.eqb_refl. reflexivity.
  - rewrite append_cons. cbn [lastIndexOf]. rewrite IH.
    destruct (Z.leb_spec 0 (Z.of_nat (String.length s))); simpl String.length; lia.
Qed.

(** The index [dirname] cuts at, for a directory, a separator and a name. *)
Lemma last_separator (sep : ascii) d n :
  sep = "/"%char \/ sep = "\"%char ->
  all_chars not_separator n = true ->
  Z.max (lastIndexOf "/" (d ++ String sep n)) (lastIndexOf "\" (d ++ String sep n))
  = Z.of_nat (String.length d).
Proof.
  intros Hsep [Hslash Hback]%not_separator_parts.
  apply lastIndexOf_absent in Hslash, Hback.
  pose proof (lastIndexOf_range "/" d). pose proof (lastIndexOf_range "\" d).
  destruct Hsep as [-> | ->].
  - rewrite (lastIndexOf_last "/" d n Hslash), (lastIndexOf_app_absent "\" d).
    + lia.
    + cbn [lastIndexOf]. rewrite Hback. reflexivity.
  - rewrite (lastIndexOf_last "\" d n Hback), (lastIndexOf_app_absent "/" d).
    + lia.
    + cbn [lastIndexOf]. rewrite Hslash. reflexivity.
Qed.

(** X7. A path made of a directory, one separator (["/"] or ["\"]) and a
    name splits back into the two: for a non-empty directory and a
    non-empty name without separators, [dirname] is the directory and
    [basename] is the name. *)
Theorem dirname_basename_split :
  forall (sep : ascii) (dir name : string),
    sep = "/"%char \/ sep = "\"%char ->
    dir <> "" -> name <> "" -> all_chars not_separator name = true ->
    dirname (dir ++ String sep name) = dir
    /\ basename (dir ++ String sep name) "" = name.
Proof.
  intros sep d n Hsep Hd Hn Hclean. split.
  - unfold dirname. rewrite (last_separator sep d n Hsep Hclean).
    destruct d as [|c d]; [congruence|]. simpl String.length.
    destruct (Z.eqb_spec (Z.of_nat (S (String.length d))) (-1)); [lia|].
    destruct (Z.eqb_spec (Z.of_nat (S (String.length d))) 0); [lia|].
    rewrite Nat2Z.id. apply (substring_prefix (String c d)).
  - rewrite basename_no_ext; [apply last_segment_snoc; assumption|].
    destruct d; [congruence | discriminate].
Qed.

Lemma dirname_basename_split_witness :
  dirname "downloads/music/track.mkv" = "downloads/music"
  /\ basename "downloads/music/track.mkv" "" = "track.mkv".
Proof.
  apply (dirname_basename_split "/" "downloads/music" "track.mkv");
    [left; reflexivity | discriminate | discriminate | reflexivity].
Defined.

(** X8. [basename] takes the extension off a name that ends with it, in a
    directory or not, and keeps a name that is the extension itself: for a
    non-empty name and a non-empty extension, both without separators,
    [basename(dir + '/' + name + ext, ext)] and [basename(name + ext, ext)]
    are the name, and [basename(ext, ext)] is the extension. *)
Theorem basename_strips_extension :
  forall (dir name ext : string),
    name <> "" -> ext <> "" ->
    all_chars not_separator name = true -> all_chars not_separator ext = true ->
    basename (dir ++ String "/" (name ++ ext)) ext = name
    /\ basename (name ++ ext) ext = name
    /\ basename ext ext = ext.
Proof.
  intros d n e Hn He Hcn Hce.
  assert (Hne : all_chars not_separator (n ++ e) = true)
    by (rewrite all_chars_app, Hcn, Hce; reflexivity).
  assert (Hne0 : n ++ e <> "") by (destruct n; [congruence | discriminate]).
  assert (Hstrip :
    (if negb (String.eqb e "") && endsWith (n ++ e) e && negb (String.eqb (n ++ e) e)
     then substring 0 (String.length (n ++ e) - String.length e) (n ++ e)
     else n ++ e) = n).
  { apply String.eqb_neq in He. rewrite He. unfold endsWith.
    rewrite length_append, Nat.add_sub, substring_suffix, String.eqb_refl.
    replace (Nat.leb (String.length e) (String.length n + String.length e)) with true
      by (symmetry; apply Nat.leb_le; lia).
    assert (Hdiff : String.eqb (n ++ e) e = false).
    { apply String.eqb_neq. intros H. apply (f_equal String.length) in H.
      rewrite length_append in H. destruct n; [congruence | simpl in H; lia]. }
    rewrite Hdiff. cbn [negb andb]. apply substring_prefix. }
  split; [|split].
  - unfold basename.
    replace (String.eqb (d ++ String "/" (n ++ e)) "") with false
      by (symmetry; apply String.eqb_neq; destruct d; discriminate).
    fold (last_segment (d ++ String "/" (n ++ e))).
    rewrite (last_segment_snoc "/" d (n ++ e)) by auto. exact Hstrip.
  - unfold basename. apply String.eqb_neq in Hne0. rewrite Hne0.
    fold (last_segment (n ++ e)). rewrite (last_segment_plain _ Hne). exact Hstrip.
  - unfold basename. pose proof He as He'. apply String.eqb_neq in He'. rewrite He'.
    fold (last_segment e). rewrite (last_segment_plain _ Hce), String.eqb_refl.
    rewrite andb_false_r. reflexivity.
Qed.

Lemma basename_strips_extension_witness :
  basename ("videos" ++ String "/" ("clip" ++ ".mp4")) ".mp4" = "clip"
  /\ basename ("clip" ++ ".mp4") ".mp4" = "clip"
  /\ basename ".mp4" ".mp4" = ".mp4".
Proof.
  apply (basename_strips_extension "videos" "clip" ".mp4");
    [discriminate | discriminate | reflexivity | reflexivity].
Defined.

(** X9. Separators at the end of a path do not count: [basename] of a path
    followed by ["/"] or by ["\"] is [basename] of the path. *)
Theorem basename_ignores_trailing_separator :
  forall (path ext : string),
    basename (path ++ "/") ext = basename path ext
    /\ basename (path ++ "\") ext = basename path ext.
Proof.
  intros path ext.
  assert (H : forall sep : ascii, sep = "/"%char \/ sep = "\"%char ->
            basename (path ++ String sep "") ext = basename path ext).
  { intros sep Hsep. destruct path as [|c path].
    - change ("" ++ String sep "") with (String sep "").
      destruct Hsep as [-> | ->]; destruct ext as [|e ext]; reflexivity.
    - unfold basename. rewrite append_cons. cbn [String.eqb].
      fold (last_segment (String c (path ++ String sep ""))).
      fold (last_segment (String c path)).
      replace (last_segment (String c (path ++ String sep ""))) with (last_segment (String c path));
        [reflexivity|].
      rewrite <- append_cons. unfold last_segment. rewrite replace_all_app.
      replace (replace_all "\" "/" (String sep "")) with (String "/" "")
        by (destruct Hsep as [-> | ->]; reflexivity).
      rewrite split_app, rev_app_distr.
      change (rev (split "/" "")) with [""]. cbn [app].
      destruct (rev (split "/" (replace_all "\" "/" (String c path)))); reflexivity. }
  split; apply H; auto.
Qed.

(** X10. Without a separator there is no directory: [dirname] of a path
    with no ["/"] and no ["\"], the empty path among them, is ["."]; and a
    name right under the root has the root separator for directory. *)
Theorem dirname_without_directory :
  forall (name : string),
    all_chars not_separator name = true ->
    dirname name = "." /\ dirname (String "/" name) = "/" /\ dirname (String "\" name) = "\".
Proof.
  intros n Hclean.
  pose proof (last_separator "/" "" n (or_introl eq_refl) Hclean) as H1.
  pose proof (last_separator "\" "" n (or_intror eq_refl) Hclean) as H2.
  apply not_separator_parts in Hclean as [Hslash Hback].
  apply lastIndexOf_absent in Hslash, Hback.
  split; [|split]; unfold dirname.
  - rewrite Hslash, Hback. reflexivity.
  - change (String "/" n) with ("" ++ String "/" n). rewrite H1. reflexivity.
  - change (String "\" n) with ("" ++ String "\" n). rewrite H2. reflexivity.
Qed.

Lemma dirname_without_directory_witness :
  dirname "track.mkv" = "." /\ dirname "/track.mkv" = "/" /\ dirname "\track.mkv" = "\".
Proof. apply (dirname_without_directory "track.mkv"). reflexivity. Defined.

End PathFacts.

(* --------------------------------------------------------------------- *)
(** ** Pagination *)
(* --------------------------------------------------------------------- *)

Module PaginationFacts.
Import Base64 Pagination.

Local Open Scope Z_scope.

Lemma page_numbers_range last i : In i (page_numbers last) <-> 1 <= i <= last.
Proof.
  unfold page_numbers. rewrite in_map_iff. split.
  - intros (k & <- & Hk%in_seq). lia.
  - intros H. exists (Z.to_nat i). split; [lia|]. apply in_seq. lia.
Qed.

Lemma page_numbers_ends last :
  2 <= last -> exists mid, page_numbers last = 1 :: (mid ++ [last])%list.
Proof.
  intros H. unfold page_numbers.
  destruct (Z.to_nat last) as [|[|n]] eqn:Hn; [lia | lia |].
  exists (map Z.of_nat (seq 2 n)).
  replace (S (S n)) with (S n + 1)%nat by lia.
  rewrite seq_app, map_app. cbn [seq map app Nat.add].
  f_equal. f_equal. simpl. f_equal. lia.
Qed.

(** What a turn of the loop leaves once the gaps are taken away. *)
Lemma loop_body_pages current last delta strR i :
  i <> 0 ->
  map page (List.filter is_page (loop_body current last delta strR i))
  = if listed current last delta i then [i] else [].
Proof.
  intros Hi. unfold loop_body.
  destruct (listed current last delta i); [|reflexivity].
  assert (Hp : is_page (page_item current i) = true).
  { unfold is_page. simpl. apply negb_true_iff, Z.eqb_neq, Hi. }
  destruct (i =? current - delta) , (2 <? i), (i =? current + delta + 1 - 1), (i <? last - 1);
    cbn [andb app List.filter is_page gap_item page Z.eqb negb map];
    fold (is_page (page_item current i)); rewrite Hp; reflexivity.
Qed.

Lemma flat_map_pages current last delta strR l :
  Forall (fun i => i <> 0) l ->
  map page (List.filter is_page (flat_map (loop_body current last delta strR) l))
  = List.filter (listed current last delta) l.
Proof.
  induction 1 as [|i l Hi _ IH]; [reflexivity|].
  cbn [flat_map List.filter]. rewrite List.filter_app, map_app, IH, loop_body_pages by exact Hi.
  destruct (listed current last delta i); reflexivity.
Qed.

(** X11. The pages [makePagination] lists, gaps apart, are the first page,
    the last page and the pages within [delta] of the current one, each
    once and in increasing order; with fewer than two pages the list is
    empty. *)
Theorem makePagination_pages :
  forall (current last delta : Z),
    map page (List.filter is_page (makePagination current last delta))
    = if last <? 2 then []
      else List.filter (fun i => (1 =? i) || (last =? i)
                                  || ((current - delta <=? i) && (i <? current + delta + 1)))
             (page_numbers last).
Proof.
  intros current last delta. unfold makePagination.
  destruct (last <? 2); [reflexivity|].
  apply flat_map_pages. apply Forall_forall. intros i Hi.
  apply list_elem_of_In, page_numbers_range in Hi. lia.
Qed.

(** X12. With at least two pages, the list begins with the first page and
    ends with the last one: no gap comes first or last. *)
Theorem makePagination_ends :
  forall (current last delta : Z),
    2 <= last ->
    exists mid,
      makePagination current last delta
      = page_item current 1 :: (mid ++ [page_item current last])%list.
Proof.
  intros current last delta Hl. unfold makePagination.
  destruct (Z.ltb_spec last 2); [lia|].
  destruct (page_numbers_ends last Hl) as (mid & ->).
  set (strR := repeat_char "-" (9 + String.length (number_text last))).
  cbn [flat_map]. rewrite flat_map_app. cbn [flat_map]. rewrite app_nil_r.
  assert (H1 : exists t, loop_body current last delta strR 1 = page_item current 1 :: t).
  { unfold loop_body, listed. cbn [Z.eqb orb]. rewrite andb_false_r. eauto. }
  assert (H2 : exists t, loop_body current last delta strR last
                         = (t ++ [page_item current last])%list).
  { unfold loop_body, listed. rewrite Z.eqb_refl, orb_true_r. cbn [orb].
    replace (last <? last - 1) with false by (symmetry; apply Z.ltb_ge; lia).
    rewrite andb_false_r. eexists. reflexivity. }
  destruct H1 as (t1 & ->), H2 as (t2 & ->).
  exists (t1 ++ flat_map (loop_body current last delta strR) mid ++ t2)%list.
  rewrite <- !app_comm_cons, !app_assoc. reflexivity.
Qed.

Lemma makePagination_ends_witness :
  exists mid, makePagination 7 20 2 = page_item 7 1 :: (mid ++ [page_item 7 20])%list.
Proof. apply (makePagination_ends 7 20 2). lia. Defined.

Lemma loop_body_selected current last delta strR i :
  0 <= delta ->
  List.filter selected (loop_body current last delta strR i)
  = if i =? current then [page_item current current] else [].
Proof.
  intros Hd. unfold loop_body, listed.
  destruct (Z.eqb_spec i current) as [->|Hne].
  - replace (current - delta <=? current) with true by (symmetry; apply Z.leb_le; lia).
    replace (current <? current + delta + 1) with true by (symmetry; apply Z.ltb_lt; lia).
    rewrite orb_true_r.
    assert (Hs : selected (page_item current current) = true) by apply Z.eqb_refl.
    destruct (current =? current - delta), (2 <? current),
      (current =? current + delta + 1 - 1), (current <? last - 1);
      cbn [andb app List.filter gap_item selected];
      fold (selected (page_item current current)); rewrite Hs; reflexivity.
  - assert (Hs : selected (page_item current i) = false) by (apply Z.eqb_neq, Hne).
    destruct ((1 =? i) || (last =? i) || ((current - delta <=? i) && (i <? current + delta + 1)));
      [|reflexivity].
    destruct (i =? current - delta), (2 <? i), (i =? current + delta + 1 - 1), (i <? last - 1);
      cbn [andb app List.filter gap_item selected];
      fold (selected (page_item current i)); rewrite Hs; reflexivity.
Qed.

Lemma flat_map_only (A : Type) (g : A) current (n : nat) :
  flat_map (fun i => if i =? current then [g] else []) (map Z.of_nat (seq 1 n))
  = if (1 <=? current) && (current <=? Z.of_nat n) then [g] else [].
Proof.
  induction n as [|n IH].
  { cbn [seq map flat_map].
    destruct (Z.leb_spec 1 current), (Z.leb_spec current (Z.of_nat 0)); try reflexivity; lia. }
  rewrite seq_S, map_app, flat_map_app, IH. cbn [map flat_map Nat.add app].
  rewrite app_nil_r.
  destruct (Z.eqb_spec (Z.of_nat (S n)) current) as [<-|Hne].
  - replace (Z.of_nat (S n) <=? Z.of_nat n) with false by (symmetry; apply Z.leb_gt; lia).
    rewrite andb_false_r.
    replace (1 <=? Z.of_nat (S n)) with true by (symmetry; apply Z.leb_le; lia).
    rewrite Z.leb_refl. reflexivity.
  - rewrite app_nil_r.
    destruct (Z.leb_spec 1 current); cbn [andb]; [|reflexivity].
    destruct (Z.leb_spec current (Z.of_nat n)), (Z.leb_spec current (Z.of_nat (S n)));
      try reflexivity; lia.
Qed.

(** X13. With at least two pages, a current page among them and a
    [delta] that is not negative, exactly one entry is selected, and it is
    the entry of the current page. *)
Theorem makePagination_selects_current :
  forall (current last delta : Z),
    2 <= last -> 1 <= current <= last -> 0 <= delta ->
    List.filter selected (makePagination current last delta) = [page_item current current].
Proof.
  intros current last delta Hl Hc Hd. unfold makePagination.
  destruct (Z.ltb_spec last 2); [lia|].
  set (strR := repeat_char "-" (9 + String.length (number_text last))).
  assert (H' : forall l,
    List.filter selected (flat_map (loop_body current last delta strR) l)
    = flat_map (fun i => if i =? current then [page_item current current] else []) l).
  { induction l as [|i l IH]; [reflexivity|].
    cbn [flat_map]. rewrite List.filter_app, IH, loop_body_selected by exact Hd. reflexivity. }
  rewrite H'. unfold page_numbers. rewrite flat_map_only.
  replace (1 <=? current) with true by (symmetry; apply Z.leb_le; lia).
  replace (current <=? Z.of_nat (Z.to_nat last)) with true by (symmetry; apply Z.leb_le; lia).
  reflexivity.
Qed.

Lemma makePagination_selects_current_witness :
  List.filter selected (makePagination 7 20 2) = [page_item 7 7].
Proof. apply (makePagination_selects_current 7 20 2); lia. Defined.

(** Without the bound on [delta], the current page can be left out. *)
Example makePagination_negative_delta :
  map page (makePagination 3 10 (-1)) = [1; 10]
  /\ List.filter selected (makePagination 3 10 (-1)) = [].
Proof. split; reflexivity. Qed.

End PaginationFacts.

(* --------------------------------------------------------------------- *)
(** ** Identifiers *)
(* --------------------------------------------------------------------- *)

Module IdFacts.
Import Utils Base64 Ids StringFacts.

Lemma bytes_ok : forallb byte_ok (map N.of_nat (seq 0 256)) = true.
Proof. vm_compute. reflexivity. Qed.

Lemma byte_ok_all n : (n < 256)%N -> byte_ok n = true.
Proof.
  intros Hn. pose proof bytes_ok as H. rewrite forallb_forall in H. apply H.
  apply in_map_iff. exists (N.to_nat n). split; [lia|]. apply in_seq. lia.
Qed.

Lemma dec2hex_byte n :
  (n < 256)%N ->
  String.length (dec2hex n) = 2
  /\ all_chars is_hex_digit (dec2hex n) = true
  /\ hex_pair_value (dec2hex n) = n.
Proof.
  intros Hn. pose proof (byte_ok_all n Hn) as H. unfold byte_ok in H.
  apply andb_true_iff in H as [H H3]. apply andb_true_iff in H as [H1 H2].
  apply Nat.eqb_eq in H1. apply N.eqb_eq in H3. auto.
Qed.

(** X14. For a byte, [dec2hex] returns exactly two lowercase hexadecimal
    digits, and different bytes get different digits. *)
Theorem dec2hex_two_digits :
  forall (a b : N),
    (a < 256)%N -> (b < 256)%N ->
    String.length (dec2hex a) = 2
    /\ all_chars is_hex_digit (dec2hex a) = true
    /\ (dec2hex a = dec2hex b -> a = b).
Proof.
  intros a b Ha Hb.
  destruct (dec2hex_byte a Ha) as (H1 & H2 & H3).
  destruct (dec2hex_byte b Hb) as (_ & _ & H3').
  repeat split; [exact H1 | exact H2|].
  intros H. rewrite <- H3, <- H3', H. reflexivity.
Qed.

Lemma dec2hex_two_digits_witness :
  dec2hex 10 = "0a" /\ dec2hex 255 = "ff"
  /\ String.length (dec2hex 10) = 2
  /\ all_chars is_hex_digit (dec2hex 10) = true
  /\ (dec2hex 10 = dec2hex 255 -> 10%N = 255%N).
Proof.
  split; [reflexivity|]. split; [reflexivity|].
  apply (dec2hex_two_digits 10 255); reflexivity.
Defined.

Lemma concat_pairs (l : list string) :
  Forall (fun s => String.length s = 2 /\ all_chars is_hex_digit s = true) l ->
  String.length (String.concat "" l) = 2 * List.length l
  /\ all_chars is_hex_digit (String.concat "" l) = true.
Proof.
  induction 1 as [|x l [Hx1 Hx2] Hl [IH1 IH2]]; [split; reflexivity|].
  destruct l as [|y l].
  - simpl. rewrite Hx1, Hx2. auto.
  - change (String.concat "" (x :: y :: l)) with (x ++ "" ++ String.concat "" (y :: l)).
    change ("" ++ String.concat "" (y :: l)) with (String.concat "" (y :: l)).
    rewrite length_append, all_chars_app, Hx1, Hx2, IH1, IH2. simpl List.length. split; [lia | reflexivity].
Qed.

Lemma makeId_shape (random : nat -> N) (len : nat) :
  String.length (makeId random len) = 2 * (len / 2)
  /\ all_chars is_hex_digit (makeId random len) = true.
Proof.
  unfold makeId.
  destruct (concat_pairs (map (fun i => dec2hex (random i mod 256)%N) (seq 0 (len / 2)))) as [H1 H2].
  - apply Forall_forall. intros s Hs. apply list_elem_of_In, in_map_iff in Hs as (i & <- & _).
    destruct (dec2hex_byte (random i mod 256)%N) as (? & ? & _); [|auto].
    apply N.mod_lt. discriminate.
  - rewrite H1, length_map, length_seq. auto.
Qed.


(** The default length, an odd one, and none. *)
Example makeId_lengths random :
  String.length (makeId random 40) = 40
  /\ String.length (makeId random 5) = 4
  /\ makeId random 1 = "".
Proof.
  repeat split; try reflexivity; rewrite (proj1 (makeId_shape random _)); reflexivity.
Qed.

End IdFacts.

(* --------------------------------------------------------------------- *)
(** ** More on [encode] and [decode] *)
(* --------------------------------------------------------------------- *)

Module CodecFacts.
Import Utils Base64 UrlSafe StringFacts Base64Facts.

Lemma url_chars_safe : forallb (fun n => is_url_safe (url_char n)) (map N.of_nat (seq 0 64)) = true.
Proof. vm_compute. reflexivity. Qed.

Lemma url_char_safe n : (n < 64)%N -> is_url_safe (url_char n) = true.
Proof.
  intros Hn. pose proof url_chars_safe as H. rewrite forallb_forall in H.
  apply (H n). apply in_map_iff. exists (N.to_nat n). split; [lia|]. apply in_seq. lia.
Qed.

Lemma url_safe_groups l :
  Forall (fun n => (n < 64)%N) l ->
  all_chars is_url_safe
    (replace_all "/" "_" (replace_all "+" "-" (string_of_list_ascii (map b64_char l)))) = true.
Proof.
  induction 1 as [|n l Hn _ IH]; [reflexivity|].
  cbn [map string_of_list_ascii replace_all all_chars]. rewrite IH, andb_true_r.
  apply (url_char_safe n Hn).
Qed.

Lemma length_sextets s : List.length (sextets s) = (4 * String.length s + 2) / 3.
Proof.
  induction s as [|a|a b|a b c r IH] using string_ind3; try reflexivity.
  rewrite sextets_3. cbn [List.length String.length]. rewrite IH.
  replace (4 * S (S (S (String.length r))) + 2) with (4 * String.length r + 2 + 4 * 3) by lia.
  rewrite Nat.div_add by discriminate. lia.
Qed.

Lemma length_string_of_list_byte l : String.length (string_of_list_byte l) = List.length l.
Proof.
  unfold string_of_list_byte. rewrite length_string_of_list. apply length_map.
Qed.

Lemma replace_all_plain a b s :
  all_chars (fun c => negb (Ascii.eqb c a)) s = true -> replace_all a b s = s.
Proof.
  induction s as [|c s IH]; simpl; [reflexivity|].
  intros [Hc Hs]%andb_true_iff. apply negb_true_iff in Hc. rewrite Hc, (IH Hs). reflexivity.
Qed.

Lemma btoa_no_dash_underscore s :
  all_chars (fun c => negb (Ascii.eqb c "-")) (btoa s) = true
  /\ all_chars (fun c => negb (Ascii.eqb c "_")) (btoa s) = true.
Proof.
  unfold btoa. fold (body s). rewrite !all_chars_app.
  assert (Hp : forall n, all_chars (fun c => negb (Ascii.eqb c "-")) (padding n) = true
                         /\ all_chars (fun c => negb (Ascii.eqb c "_")) (padding n) = true).
  { intros n. unfold padding. destruct (n mod 3) as [|[|[|k]]]; split; reflexivity. }
  destruct (Hp (String.length s)) as [-> ->]. rewrite !andb_true_r.
  split; apply (all_chars_impl plain); try apply body_plain; unfold plain; intros c H;
    repeat (apply andb_true_iff in H as [H ?]); assumption.
Qed.

Section Codec.
Variable P : Platform.

(** X16. What [encode] returns is made of letters, digits, ["-"] and ["_"]
    only: no ["+"], no ["/"], no ["="], nothing a URL would need escaped. *)
Theorem encode_is_url_safe :
  forall obj : jsobject P, all_chars is_url_safe (encode P obj) = true.
Proof.
  intros obj. rewrite encode_unpadded. apply url_safe_groups, sextets_bounded.
Qed.

(** X17. [encode] returns four characters for every three bytes of the
    UTF-8 text of the JSON, rounded up: for [n] bytes, the quotient of
    [4 * n + 2] by 3. *)
Theorem encode_length :
  forall obj : jsobject P,
    String.length (encode P obj)
    = (4 * List.length (utf8_encode P (JSON_stringify P obj)) + 2) / 3.
Proof.
  intros obj. rewrite encode_unpadded, !length_replace_all, length_body, length_sextets,
    length_string_of_list_byte. reflexivity.
Qed.

(** X18. [decode] also reads standard base64, with ["+"], ["/"] and the
    padding: on the text [btoa] makes of the UTF-8 bytes of an object's
    JSON, it returns what [JSON.parse] makes of that JSON. *)
Theorem decode_reads_standard_base64 :
  forall obj : jsobject P,
    decode P (btoa (string_of_list_byte (utf8_encode P (JSON_stringify P obj))))
    = JSON_parse P (JSON_stringify P obj).
Proof.
  intros obj. set (binary := string_of_list_byte (utf8_encode P (JSON_stringify P obj))).
  unfold decode.
  destruct (btoa_no_dash_underscore binary) as [Hd Hu].
  rewrite (replace_all_plain "-" "+" _ Hd), (replace_all_plain "_" "/" _ Hu).
  unfold padEnd. rewrite btoa_length. cbn [Nat.sub Nat.modulo Nat.divmod fst snd].
  rewrite Nat.add_0_r, Nat.sub_diag. cbn [repeat_char]. rewrite append_nil_r.
  rewrite atob_btoa. subst binary.
  rewrite list_byte_of_string_of_list_byte, utf8_decode_encode. reflexivity.
Qed.

End Codec.

Example encode_sample_is_url_safe :
  encode sample_platform (paused_object false) = "eyJwYXVzZWQiOmZhbHNlfQ"
  /\ String.length (encode sample_platform (paused_object false)) = (4 * 16 + 2) / 3
  /\ decode sample_platform "eyJwYXVzZWQiOmZhbHNlfQ==" = Some (paused_object false).
Proof. repeat split. Qed.

End CodecFacts.

(* --------------------------------------------------------------------- *)
(** ** More on the socket store *)
(* --------------------------------------------------------------------- *)

Module MessageFacts.
Import Js Client StoreFacts Messages.
Module TS := SocketStore.
Module JS := LegacySocketStore.

(** *** The state after each handler, in closed form *)

Lemma state_eq (s s' : State) :
  st_queue s = st_queue s' -> st_history s = st_history s' -> s = s'.
Proof. destruct s, s'; simpl; congruence. Qed.

Lemma absent t k s : has t k s = false -> delete k (coll t s) = coll t s.
Proof. intros H%has_false. apply delete_id, H. Qed.

(** Case on every membership test, then compare the two collections. *)
Ltac by_cases :=
  repeat match goal with
         | |- context [if has ?t ?k ?s then _ else _] => destruct (has t k s) eqn:?
         | |- context [if negb (has ?t ?k ?s) then _ else _] => destruct (has t k s) eqn:?
         end;
  cbn [negb];
  apply state_eq; cbn;
  repeat match goal with
         | H : has ?t ?k ?s = false |- _ => apply absent in H; cbn in H; rewrite ?H; clear H
         end;
  try reflexivity.

Lemma state_item_added it c :
  state (TS.on_item_added (mkEvent it) c)
  = {| st_queue := <[_id it := it]> (st_queue (state c)); st_history := st_history (state c) |}.
Proof. reflexivity. Qed.

Lemma state_item_completed it c :
  state (TS.on_item_completed (mkEvent it) c)
  = {| st_queue := delete (_id it) (st_queue (state c));
       st_history := <[_id it := it]> (st_history (state c)) |}.
Proof. unfold TS.on_item_completed. cbn [data]. by_cases. Qed.

Lemma state_item_cancelled it c :
  state (TS.on_item_cancelled (mkEvent it) c)
  = {| st_queue := delete (_id it) (st_queue (state c)); st_history := st_history (state c) |}.
Proof.
  unfold TS.on_item_cancelled. cbn [data].
  destruct (has queue (_id it) (state c)) eqn:Hq; cbn [negb].
  - change (state (toast _ _ _ c)) with (state c). rewrite Hq. reflexivity.
  - by_cases.
Qed.

Lemma state_item_deleted it c :
  state (TS.on_item_deleted (mkEvent it) c)
  = {| st_queue := st_queue (state c); st_history := delete (_id it) (st_history (state c)) |}.
Proof. unfold TS.on_item_deleted. cbn [data]. by_cases. Qed.

Lemma state_item_moved (d : StateType) it c :
  state (TS.on_item_moved (mkEvent {| to := type_name d; item := it |}) c)
  = match d with
    | queue => {| st_queue := <[_id it := it]> (st_queue (state c));
                  st_history := delete (_id it) (st_history (state c)) |}
    | history => {| st_queue := delete (_id it) (st_queue (state c));
                    st_history := <[_id it := it]> (st_history (state c)) |}
    end.
Proof.
  unfold TS.on_item_moved. cbn [data to item].
  destruct d; cbn [type_name String.eqb Ascii.eqb Bool.eqb]; by_cases.
Qed.

Lemma state_item_updated it c :
  state (TS.on_item_updated (mkEvent it) c)
  = if has history (_id it) (state c)
    then {| st_queue := st_queue (state c);
            st_history := <[_id it := it]> (st_history (state c)) |}
    else if has queue (_id it) (state c)
         then {| st_queue := <[_id it := it]> (st_queue (state c));
                 st_history := st_history (state c) |}
         else state c.
Proof.
  unfold TS.on_item_updated. cbn [data].
  destruct (has history (_id it) (state c)); [reflexivity|].
  destruct (has queue (_id it) (state c)); reflexivity.
Qed.

Lemma state_item_moved_any (json : Event Moved) c :
  state (TS.on_item_moved json c)
  = if String.eqb "queue" (to (data json))
    then {| st_queue := <[_id (item (data json)) := item (data json)]> (st_queue (state c));
            st_history := delete (_id (item (data json))) (st_history (state c)) |}
    else if String.eqb "history" (to (data json))
         then {| st_queue := delete (_id (item (data json))) (st_queue (state c));
                 st_history := <[_id (item (data json)) := item (data json)]>
                                 (st_history (state c)) |}
         else state c.
Proof.
  destruct json as [[t it]]. cbn [data to item].
  destruct (String.eqb_spec "queue" t) as [<-|Hq].
  - apply (state_item_moved queue).
  - destruct (String.eqb_spec "history" t) as [<-|Hh].
    + apply (state_item_moved history).
    + unfold TS.on_item_moved. cbn [data to item].
      apply String.eqb_neq in Hq, Hh. rewrite Hq, Hh. reflexivity.
Qed.

Lemma has_insert t k v s :
  has t k (set_coll t (<[k := v]> (coll t s)) s) = true.
Proof. apply (has_add t k v s). Qed.

(** *** Properties *)

Lemma item_added_effect it c :
  let c' := TS.on_item_added (mkEvent it) c in
  c' = JS.on_added it c
  /\ get queue (_id it) (state c') = Some it
  /\ coll history (state c') = coll history (state c)
  /\ config c' = config c
  /\ toasts c' = (toasts c ++ [{| severity := success;
                                  message := JStr ("Item queued: " ++ default "null" (title it));
                                  options := JUndefined |}])%list.
Proof.
  cbn zeta. repeat split.
  - apply (get_add queue).
  - unfold TS.on_item_added, toast. cbn -[get add].
    rewrite (get_add queue). reflexivity.
Qed.

(** X19. For every [item_added] event and every client state, the handler
    binds the Job in the queue (over an entry of the same id), leaves the
    history and the configuration alone, and raises one success
    notification that names the title of the Job just added, or ["null"]
    when it has none. The JavaScript store's [added] does the same. *)
Theorem item_added_queues_and_notifies :
  forall (it : StoreItem) (c : ClientState),
    let c' := TS.on_item_added (mkEvent it) c in
    c' = JS.on_added it c
    /\ get queue (_id it) (state c') = Some it
    /\ coll history (state c') = coll history (state c)
    /\ config c' = config c
    /\ toasts c' = (toasts c ++ [{| severity := success;
                                    message := JStr ("Item queued: " ++ default "null" (title it));
                                    options := JUndefined |}])%list.
Proof. exact item_added_effect. Qed.

(** X20. [item_updated] never adds a Job and never removes one: both
    collections keep their ids. The entry it rewrites is the one in the
    history when the id is there, else the one in the queue; a Job in
    neither is dropped. No notification is raised. *)
Theorem item_updated_keeps_ids :
  forall (it : StoreItem) (c : ClientState),
    let c' := TS.on_item_updated (mkEvent it) c in
    dom (st_queue (state c')) = dom (st_queue (state c))
    /\ dom (st_history (state c')) = dom (st_history (state c))
    /\ get history (_id it) (state c')
       = (if has history (_id it) (state c) then Some it else None)
    /\ get queue (_id it) (state c')
       = (if has history (_id it) (state c) then get queue (_id it) (state c)
          else if has queue (_id it) (state c) then Some it else None)
    /\ toasts c' = toasts c /\ config c' = config c.
Proof.
  intros it c. cbn zeta. rewrite state_item_updated.
  assert (Ht : toasts (TS.on_item_updated (mkEvent it) c) = toasts c
               /\ config (TS.on_item_updated (mkEvent it) c) = config c).
  { unfold TS.on_item_updated. cbn [data].
    destruct (has history (_id it) (state c)); [split; reflexivity|].
    destruct (has queue (_id it) (state c)); split; reflexivity. }
  destruct (has history (_id it) (state c)) eqn:Hh.
  - apply has_true in Hh. cbn in Hh. unfold get. cbn.
    rewrite (dom_insert_lookup_L _ _ _ Hh), lookup_insert_eq.
    destruct Ht as [Ht1 Ht2]. repeat split; assumption.
  - pose proof Hh as Hh'. apply has_false in Hh'. cbn in Hh'.
    destruct (has queue (_id it) (state c)) eqn:Hq.
    + apply has_true in Hq. cbn in Hq. unfold get. cbn.
      rewrite (dom_insert_lookup_L _ _ _ Hq), lookup_insert_eq.
      destruct Ht as [Ht1 Ht2]. repeat split; assumption.
    + apply has_false in Hq. cbn in Hq. unfold get. cbn.
      destruct Ht as [Ht1 Ht2]. repeat split; assumption.
Qed.

Lemma has_after_insert (m : gmap string StoreItem) k v :
  bool_decide (is_Some (<[k := v]> m !! k)) = true.
Proof. apply bool_decide_eq_true. rewrite lookup_insert_eq. eauto. Qed.

Lemma log_frame k json c :
  config (default c (TS.on_log (TS.log_event k) json c)) = config c
  /\ state (default c (TS.on_log (TS.log_event k) json c)) = state c.
Proof.
  unfold TS.on_log. destruct (prop json "data"); [|split; reflexivity].
  destruct k; split; reflexivity.
Qed.

Lemma receive_twice m c :
  config (TS.receive (TS.receive c m) m) = config (TS.receive c m)
  /\ state (TS.receive (TS.receive c m) m) = state (TS.receive c m).
Proof.
  destruct m as [json|json|k json|json|json|json|json|json|b json|json|json];
    cbn [TS.receive]; (split; [|]).
  all: try reflexivity.
  - destruct json as [it]. rewrite !state_item_added. cbn. rewrite insert_insert_eq. reflexivity.
  - rewrite !(proj1 (log_frame _ _ _)). reflexivity.
  - rewrite !(proj2 (log_frame _ _ _)). reflexivity.
  - unfold TS.on_item_completed. cbn [data].
    repeat match goal with
           | |- context [if has ?t ?k ?s then _ else _] => destruct (has t k s)
           end; reflexivity.
  - destruct json as [it]. rewrite !state_item_completed. cbn.
    rewrite delete_delete_eq, insert_insert_eq. reflexivity.
  - unfold TS.on_item_cancelled. cbn [data].
    repeat match goal with
           | |- context [if negb (has ?t ?k ?s) then _ else _] => destruct (has t k s); cbn [negb]
           | |- context [if has ?t ?k ?s then _ else _] => destruct (has t k s)
           end; reflexivity.
  - destruct json as [it]. rewrite !state_item_cancelled. cbn.
    rewrite delete_delete_eq. reflexivity.
  - unfold TS.on_item_deleted. cbn [data].
    repeat match goal with
           | |- context [if negb (has ?t ?k ?s) then _ else _] => destruct (has t k s); cbn [negb]
           end; reflexivity.
  - destruct json as [it]. rewrite !state_item_deleted. cbn.
    rewrite delete_delete_eq. reflexivity.
  - unfold TS.on_item_updated. cbn [data].
    repeat match goal with
           | |- context [if has ?t ?k ?s then _ else _] => destruct (has t k s)
           end; reflexivity.
  - destruct json as [it]. rewrite (state_item_updated it (TS.on_item_updated (mkEvent it) c)).
    rewrite state_item_updated.
    destruct (has history (_id it) (state c)) eqn:Hh.
    + unfold has at 1. cbn. rewrite has_after_insert, insert_insert_eq. reflexivity.
    + destruct (has queue (_id it) (state c)) eqn:Hq.
      * unfold has at 1 2. cbn. unfold has in Hh. cbn in Hh. rewrite Hh.
        rewrite has_after_insert, insert_insert_eq. reflexivity.
      * rewrite Hh, Hq. reflexivity.
  - unfold TS.on_item_moved.
    repeat match goal with
           | |- context [if String.eqb ?a ?b then _ else _] => destruct (String.eqb a b)
           | |- context [if has ?t ?k ?s then _ else _] => destruct (has t k s)
           end; reflexivity.
  - rewrite (state_item_moved_any json (TS.on_item_moved json c)), state_item_moved_any.
    destruct (String.eqb "queue" (to (data json))).
    + cbn. rewrite insert_insert_eq, delete_delete_eq. reflexivity.
    + destruct (String.eqb "history" (to (data json))); [|reflexivity].
      cbn. rewrite insert_insert_eq, delete_delete_eq. reflexivity.
  - destruct b; reflexivity.
  - destruct b; reflexivity.
Qed.

(** X21. A message delivered twice in a row does no more to the
    configuration, the queue and the history than the message delivered
    once: only notifications can repeat. *)
Theorem duplicate_delivery_is_harmless :
  forall (m : TS.message) (c : ClientState),
    config (TS.receive (TS.receive c m) m) = config (TS.receive c m)
    /\ state (TS.receive (TS.receive c m) m) = state (TS.receive c m).
Proof. exact receive_twice. Qed.

Lemma exclusive_dom s : exclusive s <-> dom (st_queue s) ## dom (st_history s).
Proof.
  unfold exclusive. rewrite elem_of_disjoint. split.
  - intros H k Hq Hh. apply (H k). rewrite !has_true. cbn. rewrite <- !elem_of_dom. auto.
  - intros H k [Hq Hh]. apply (H k); apply elem_of_dom; [apply has_true in Hq | apply has_true in Hh];
      assumption.
Qed.

Lemma disjoint_delete_l (a b : gset string) k : a ## b -> a ∖ {[k]} ## b.
Proof. intros H x Hx. apply H. apply elem_of_difference in Hx. tauto. Qed.

Lemma disjoint_delete_r (a b : gset string) k : a ## b -> a ## b ∖ {[k]}.
Proof. intros H x Hx Hx'. apply (H x Hx). apply elem_of_difference in Hx'. tauto. Qed.

Lemma disjoint_move (a b : gset string) k : a ## b -> a ∖ {[k]} ## {[k]} ∪ b.
Proof.
  intros H x Hx Hx'. apply elem_of_difference in Hx as [Hx Hk].
  apply elem_of_union in Hx' as [Hx'|Hx']; [tauto|]. exact (H x Hx Hx').
Qed.

Lemma disjoint_add (a b : gset string) k : a ## b -> k ∉ b -> {[k]} ∪ a ## b.
Proof.
  intros H Hk x Hx Hx'. apply elem_of_union in Hx as [Hx|Hx]; [|exact (H x Hx Hx')].
  apply elem_of_singleton in Hx. subst. tauto.
Qed.

Lemma exclusive_one_empty s : st_queue s = ∅ \/ st_history s = ∅ -> exclusive s.
Proof.
  intros H k [Hq Hh]. apply has_true in Hq, Hh. cbn in Hq, Hh.
  destruct H as [H|H]; rewrite H, lookup_empty in *; [destruct Hq | destruct Hh]; discriminate.
Qed.

Lemma receive_apart m c :
  exclusive (state c) -> keeps_apart m c -> exclusive (state (TS.receive c m)).
Proof.
  rewrite !exclusive_dom. intros Hex Hm.
  destruct m as [json|json|k json|json|json|json|json|json|b json|json|json];
    cbn [TS.receive keeps_apart] in *.
  - exact Hm.
  - destruct json as [it]. rewrite state_item_added. cbn in *. rewrite dom_insert_L.
    apply disjoint_add; [exact Hex|]. apply has_false in Hm. cbn in Hm.
    apply not_elem_of_dom, Hm.
  - rewrite (proj2 (log_frame _ _ _)). exact Hex.
  - destruct json as [it]. rewrite state_item_completed. cbn.
    rewrite dom_insert_L, dom_delete_L. apply disjoint_move, Hex.
  - destruct json as [it]. rewrite state_item_cancelled. cbn.
    rewrite dom_delete_L. apply disjoint_delete_l, Hex.
  - destruct json as [it]. rewrite state_item_deleted. cbn.
    rewrite dom_delete_L. apply disjoint_delete_r, Hex.
  - destruct json as [it]. rewrite state_item_updated.
    destruct (has history (_id it) (state c)) eqn:Hh.
    + apply has_true in Hh. cbn in *. rewrite (dom_insert_lookup_L _ _ _ Hh). exact Hex.
    + destruct (has queue (_id it) (state c)) eqn:Hq; [|exact Hex].
      apply has_true in Hq. cbn in *. rewrite (dom_insert_lookup_L _ _ _ Hq). exact Hex.
  - rewrite state_item_moved_any.
    destruct (String.eqb "queue" (to (data json))).
    + cbn. rewrite dom_insert_L, dom_delete_L. symmetry. apply disjoint_move. symmetry. exact Hex.
    + destruct (String.eqb "history" (to (data json))); [|exact Hex].
      cbn. rewrite dom_insert_L, dom_delete_L. apply disjoint_move, Hex.
  - destruct b; exact Hex.
  - exact Hex.
  - exact Hex.
Qed.

(** X22. The store keeps every Job in at most one of the two collections:
    if no id is in both before a message, none is after it, provided a
    snapshot does not itself list an id in both and a Job announced as
    added is not already in the history. Every other message keeps the
    two apart without condition. *)
Theorem receive_keeps_collections_apart :
  forall (m : TS.message) (c : ClientState),
    exclusive (state c) -> keeps_apart m c -> exclusive (state (TS.receive c m)).
Proof. exact receive_apart. Qed.

Lemma receive_keeps_collections_apart_witness :
  exclusive (state (TS.receive (TS.receive initial (TS.item_added (mkEvent job_a)))
                      (TS.item_completed (mkEvent job_a)))).
Proof.
  apply (receive_keeps_collections_apart (TS.item_completed (mkEvent job_a))
           (TS.receive initial (TS.item_added (mkEvent job_a)))); [|exact I].
  apply exclusive_one_empty. right. reflexivity.
Defined.

(** Without the condition on [item_added], the two can meet. *)
Example item_added_can_break_exclusive :
  exclusive (state (TS.receive initial (TS.item_completed (mkEvent job_a))))
  /\ ~ exclusive (state (TS.receive (TS.receive initial (TS.item_completed (mkEvent job_a)))
                          (TS.item_added (mkEvent job_a)))).
Proof.
  split.
  - apply exclusive_one_empty. left. reflexivity.
  - intros H. apply (H "a"). split; reflexivity.
Qed.

(** Open the handler of an item message and case on its tests. *)
Ltac item_case :=
  (split; [|split]); try discriminate; try intros _;
  unfold TS.on_item_completed, TS.on_item_cancelled, TS.on_item_deleted,
    TS.on_item_updated, TS.on_item_moved;
  cbn [data];
  repeat match goal with
         | |- context [if String.eqb ?a ?b then _ else _] => destruct (String.eqb a b)
         | |- context [if negb (has ?t ?k ?s) then _ else _] => destruct (has t k s); cbn [negb]
         | |- context [if has ?t ?k ?s then _ else _] => destruct (has t k s)
         end;
  first [reflexivity | match goal with H : _ |- _ => apply H end].

Lemma receive_frame m c :
  (exists extra, toasts (TS.receive c m) = (toasts c ++ extra)%list /\ List.length extra <= 1)
  /\ (writes_config m = false -> config (TS.receive c m) = config c)
  /\ (writes_state m = false -> state (TS.receive c m) = state c).
Proof.
  assert (Hnil : forall l : list Notification,
             exists extra, l = (l ++ extra)%list /\ List.length extra <= 1).
  { intros l. exists []. rewrite app_nil_r. split; [reflexivity | simpl; lia]. }
  assert (Hone : forall (l : list Notification) n,
             exists extra, (l ++ [n])%list = (l ++ extra)%list /\ List.length extra <= 1).
  { intros l n. exists [n]. split; [reflexivity | simpl; lia]. }
  destruct m as [json|json|k json|json|json|json|json|json|b json|json|json];
    cbn [TS.receive writes_config writes_state].
  - split; [apply Hnil|]. split; discriminate.
  - split; [apply Hone|]. split; [reflexivity | discriminate].
  - split; [|split; intros _; apply log_frame].
    unfold TS.on_log. destruct (prop json "data"); [|apply Hnil].
    destruct k; apply Hone.
  - item_case.
  - item_case.
  - item_case.
  - item_case.
  - item_case.
  - split; [|split; [discriminate | intros _; destruct b; reflexivity]]. destruct b; apply Hone.
  - split; [apply Hnil|]. split; [discriminate | reflexivity].
  - split; [apply Hnil|]. split; [discriminate | reflexivity].
Qed.

(** X23. What a message can touch: every message leaves the notifications
    raised so far in place and adds at most one; only a snapshot, a pause or
    resume and an update of the presets or of the download fields write to
    the configuration; only a snapshot and the item messages write to the
    queue and the history. *)
Theorem receive_writes_only_its_store :
  forall (m : TS.message) (c : ClientState),
    (exists extra, toasts (TS.receive c m) = (toasts c ++ extra)%list /\ List.length extra <= 1)
    /\ (writes_config m = false -> config (TS.receive c m) = config c)
    /\ (writes_state m = false -> state (TS.receive c m) = state c).
Proof. exact receive_frame. Qed.

Lemma receive_writes_only_its_store_witness :
  let m := TS.log warning (JObj [("message", JStr "Disk is almost full.")]) in
  writes_config m = false /\ writes_state m = false
  /\ config (TS.receive initial m) = config initial
  /\ state (TS.receive initial m) = state initial.
Proof.
  cbn zeta. split; [reflexivity|]. split; [reflexivity|].
  destruct (receive_writes_only_its_store
              (TS.log warning (JObj [("message", JStr "Disk is almost full.")])) initial)
    as (_ & Hc & Hs).
  split; [apply Hc | apply Hs]; reflexivity.
Defined.

End MessageFacts.

(* --------------------------------------------------------------------- *)
(** ** Durations *)
(* --------------------------------------------------------------------- *)

Module TimeFacts.
Import Pagination Ids Times StringFacts.

Local Open Scope Z_scope.

Lemma two_digits_all : forallb two_digits_ok (seq 0 100) = true.
Proof. vm_compute. reflexivity. Qed.

Lemma below_100 n :
  0 <= n < 100 ->
  String.length (pad n) = 2%nat
  /\ String.length (number_text n) = if n <? 10 then 1%nat else 2%nat.
Proof.
  intros Hn. pose proof two_digits_all as H. rewrite forallb_forall in H.
  assert (Hin : In (Z.to_nat n) (seq 0 100)) by (apply in_seq; lia).
  apply H in Hin. unfold two_digits_ok in Hin. rewrite Z2Nat.id in Hin by lia.
  apply andb_true_iff in Hin as [H1 H2].
  apply Nat.eqb_eq in H1, H2. split; [exact H1|]. rewrite H2.
  destruct (Nat.ltb_spec (Z.to_nat n) 10), (Z.ltb_spec n 10); try reflexivity; lia.
Qed.

Lemma formatTime_shape seconds :
  0 <= seconds < 360000 ->
  formatTime seconds
  = (if seconds <? 60 then number_text seconds
     else if seconds <? 3600 then pad (seconds / 60) ++ ":" ++ pad (seconds mod 60)
          else pad (seconds / 3600) ++ ":" ++ pad (seconds mod 3600 / 60) ++ ":"
               ++ pad (seconds mod 60))
  /\ String.length (formatTime seconds)
     = if seconds <? 10 then 1%nat else if seconds <? 60 then 2%nat
       else if seconds <? 3600 then 5%nat else 8%nat.
Proof.
  intros Hs. unfold formatTime.
  rewrite !Z.rem_mod_nonneg by lia.
  destruct (Z.ltb_spec seconds 60) as [H60|H60].
  - rewrite (Z.div_small seconds 3600), (Z.mod_small seconds 3600), (Z.div_small seconds 60),
      (Z.mod_small seconds 60) by lia.
    cbn [Z.ltb Z.compare]. split; [reflexivity|].
    destruct (below_100 seconds) as [_ ->]; [lia|].
    destruct (seconds <? 10); reflexivity.
  - replace (seconds <? 10) with false by (symmetry; apply Z.ltb_ge; lia).
    destruct (Z.ltb_spec seconds 3600) as [H3600|H3600].
    + rewrite (Z.div_small seconds 3600), (Z.mod_small seconds 3600) by lia.
      cbn [Z.ltb Z.compare].
      replace (0 <? seconds / 60) with true
        by (symmetry; apply Z.ltb_lt; Base64Facts.div_lia).
      split; [reflexivity|].
      rewrite !length_append.
      destruct (below_100 (seconds / 60)) as [-> _]; [Base64Facts.div_lia|].
      destruct (below_100 (seconds mod 60)) as [-> _]; [Base64Facts.div_lia|].
      reflexivity.
    + replace (0 <? seconds / 3600) with true
        by (symmetry; apply Z.ltb_lt; Base64Facts.div_lia).
      split; [reflexivity|].
      rewrite !length_append.
      destruct (below_100 (seconds / 3600)) as [-> _]; [Base64Facts.div_lia|].
      destruct (below_100 (seconds mod 3600 / 60)) as [-> _]; [Base64Facts.div_lia|].
      destruct (below_100 (seconds mod 60)) as [-> _]; [Base64Facts.div_lia|].
      reflexivity.
Qed.

(** X24. For a time from 0 seconds up to 100 hours, [formatTime] shows the
    seconds alone, without padding, under a minute; minutes and seconds,
    two digits each, under an hour; and hours, minutes and seconds, two
    digits each, from an hour on: one or two characters, five, or eight. *)
Theorem formatTime_fields :
  forall seconds : Z,
    0 <= seconds < 360000 ->
    formatTime seconds
    = (if seconds <? 60 then number_text seconds
       else if seconds <? 3600 then pad (seconds / 60) ++ ":" ++ pad (seconds mod 60)
            else pad (seconds / 3600) ++ ":" ++ pad (seconds mod 3600 / 60) ++ ":"
                 ++ pad (seconds mod 60))
    /\ String.length (formatTime seconds)
       = if seconds <? 10 then 1%nat else if seconds <? 60 then 2%nat
         else if seconds <? 3600 then 5%nat else 8%nat.
Proof. exact formatTime_shape. Qed.

Lemma formatTime_fields_witness :
  formatTime 3725 = "01:02:05" /\ String.length (formatTime 3725) = 8%nat.
Proof.
  split; [reflexivity|]. apply (formatTime_fields 3725). lia.
Defined.

(** Seconds, minutes and hours; a whole hour keeps its empty fields; a
    negative time shows its seconds only. *)
Example formatTime_examples :
  formatTime 7 = "7" /\ formatTime 65 = "01:05" /\ formatTime 3600 = "01:00:00"
  /\ formatTime 59 = "59" /\ formatTime (-90) = "-30".
Proof. repeat split. Qed.

End TimeFacts.
